(** * Behavioural feature extraction: a shallow embedding

    The Python sources under [backend/features] are embedded as Rocq
    functions.  Python floats are idealised as real numbers ([R]); a
    [dict] with string keys is a [gmap string _]; an event whose key may
    be absent is a record of optional fields; a raised exception is the
    [Err] branch of [result].

    Exact arithmetic is not the arithmetic of the code: sums, means,
    differences and square roots round in binary64.  The properties
    stated of the extractors are therefore kept to those that do not
    depend on rounding: which keys are read and written, counts, signs,
    and orders or equations between numbers that one rounded operation
    preserves.  Where rounding decides a property, the computation is
    repeated on binary64 numbers in [Binary64]. *)

From Stdlib Require Import Reals Lra Lia List ZArith.
From Stdlib Require Floats.PrimFloat.
From stdpp Require Import gmap strings list fin_maps.
Import ListNotations.

Open Scope R_scope.

(** ** Exceptions *)

Inductive error : Type :=
| KeyError (k : string)
| IndexError
| TypeError.

Inductive result (A : Type) : Type :=
| Ok (a : A)
| Err (e : error).
Arguments Ok {A} a.
Arguments Err {A} e.

#[global] Instance result_ret : MRet result := fun A a => Ok a.
#[global] Instance result_bind : MBind result := fun A B k m =>
  match m with
  | Ok a => k a
  | Err e => Err e
  end.

(** [d[k]] on a dict whose key [k] may be absent. *)
Definition getitem {A : Type} (k : string) (field : option A) : result A :=
  match field with
  | Some v => Ok v
  | None => Err (KeyError k)
  end.

(* A list comprehension whose element expression may raise is stdpp's
   [mapM] at [result]: the first exception, in list order, aborts it. *)

(** ** Numeric helpers (builtins and numpy) *)

#[global] Instance Rlt_decision : RelDecision Rlt := Rlt_dec.
#[global] Instance Rle_decision : RelDecision Rle := Rle_dec.
#[global] Instance Rgt_decision : RelDecision Rgt := Rgt_dec.
#[global] Instance Rge_decision : RelDecision Rge := Rge_dec.
#[global] Instance R_eq_dec : EqDecision R := Req_dec_T.
#[global] Instance nat_gt_dec : RelDecision gt := fun a b => decide (b < a)%nat.
#[global] Instance nat_ge_dec : RelDecision ge := fun a b => decide (b <= a)%nat.

(** [sum(xs)] *)
Definition pysum (xs : list R) : R := fold_left Rplus xs 0.

(** [len(xs)] as a float *)
Definition flen {A : Type} (xs : list A) : R := INR (length xs).

(** [np.mean] *)
Definition np_mean (xs : list R) : R := pysum xs / flen xs.

(** [np.std]: population standard deviation (divisor [n]). *)
Definition np_std (xs : list R) : R :=
  let m := np_mean xs in
  sqrt (np_mean (map (fun x => (x - m) * (x - m)) xs)).

(** [np.max] / [np.min] / [max] / [min] on a non-empty sequence. *)
Definition np_max (xs : list R) : R :=
  match xs with
  | [] => 0
  | x :: xs' => fold_left Rmax xs' x
  end.

Definition np_min (xs : list R) : R :=
  match xs with
  | [] => 0
  | x :: xs' => fold_left Rmin xs' x
  end.

(** [[ts[i+1] - ts[i] for i in range(len(ts)-1)]], also [np.diff]. *)
Fixpoint diffs (ts : list R) : list R :=
  match ts with
  | a :: ((b :: _) as rest) => (b - a) :: diffs rest
  | _ => []
  end.

(** [math.log2] *)
Definition log2 (x : R) : R := ln x / ln 2.

(** [math.atan2(y, x)] *)
Definition atan2 (y x : R) : R :=
  if decide (0 < x) then atan (y / x)
  else if decide (x < 0) then
    (if decide (0 <= y) then atan (y / x) + PI else atan (y / x) - PI)
  else if decide (0 < y) then PI / 2
  else if decide (y < 0) then - (PI / 2)
  else 0.

(** ** Raw events

    JSON objects whose keys may be missing: a missing key is [None]. *)

Module Move.
Record t := mk { x : option R; y : option R; ts : option R }.
End Move.

Module Click.
Record t := mk { ts : option R; button : option Z }.
End Click.

Module Key.
Record t := mk { code : option string; ts : option R }.
End Key.

(** ** [feature_utils.MouseTrajectoryUtils] *)

Module MouseTrajectoryUtils.

Definition distance (pointOne pointTwo : R * R) : R :=
  let '(x1, y1) := pointOne in
  let '(x2, y2) := pointTwo in
  let dx := x2 - x1 in
  let dy := y2 - y1 in
  sqrt (dx ^ 2 + dy ^ 2).

Definition velocityPixelsPerSecond (distancePx timeMs : R) : R :=
  if decide (timeMs <= 0) then 0
  else (distancePx / timeMs) * 1000.

Definition angleBetween (pointOne pointTwo pointThree : R * R) : R :=
  let vectorOne := (fst pointOne - fst pointTwo, snd pointOne - snd pointTwo) in
  let vectorTwo := (fst pointThree - fst pointTwo, snd pointThree - snd pointTwo) in
  let dot := fst vectorOne * fst vectorTwo + snd vectorOne * snd vectorTwo in
  let det := fst vectorOne * snd vectorTwo - snd vectorOne * fst vectorTwo in
  let angle := atan2 det dot in
  Rabs angle.

(** [range(len(coords)-1)] pairs of consecutive points. *)
Fixpoint segments {A : Type} (l : list A) : list (A * A) :=
  match l with
  | a :: ((b :: _) as rest) => (a, b) :: segments rest
  | _ => []
  end.

Definition extractCoordinatesAndTimes (moves : list Move.t)
  : result (list (R * R) * list R) :=
  if decide (length moves < 2)%nat then Ok ([], [])
  else
    coords ← mapM (fun m => x ← getitem "x" (Move.x m);
                            y ← getitem "y" (Move.y m);
                            Ok (x, y)) moves;
    timestamps ← mapM (fun m => getitem "ts" (Move.ts m)) moves;
    let timeDeltas := diffs timestamps in
    Ok (coords, timeDeltas).

End MouseTrajectoryUtils.

(** ** [feature_utils.KeystrokeUtils] *)

Module KeystrokeUtils.

Section Entropy.
Context {A : Type} `{EqDecision A}.

(** [collections.Counter]: an insertion-ordered table of counts; the
    items need only support equality, so it is kept as an association
    list in first-occurrence order. *)
Fixpoint counter_add (x : A) (c : list (A * nat)) : list (A * nat) :=
  match c with
  | [] => [(x, 1%nat)]
  | (y, n) :: c' =>
      if decide (x = y) then (y, S n) :: c' else (y, n) :: counter_add x c'
  end.

Definition Counter (items : list A) : list (A * nat) :=
  fold_left (fun c x => counter_add x c) items [].

Definition calculateEntropy (items : list A) : R :=
  if decide (length items = 0%nat) then 0
  else
    let counts := Counter items in
    let total := length items in
    fold_left
      (fun entropy count =>
         let p := INR count / INR total in
         if decide (p > 0) then entropy - p * log2 p else entropy)
      (map snd counts) 0.
End Entropy.

Definition interKeyDelays (keys : list Key.t) : result (list R) :=
  if decide (length keys < 2)%nat then Ok []
  else
    timestamps ← mapM (fun k => getitem "ts" (Key.ts k)) keys;
    Ok (diffs timestamps).

End KeystrokeUtils.

(** ** Control flow of a [for] loop whose body may [return] *)

Inductive flow (S V : Type) : Type :=
| Next (s : S)
| Return (v : V).
Arguments Next {S V} s.
Arguments Return {S V} v.

(** Runs [body] over [items]; the result is [Some v] when some iteration
    executed [return v], and [None] when the loop ran to its end without
    returning (the enclosing function then falls off its end). *)
Fixpoint py_for {I S V : Type} (body : I -> S -> flow S V)
    (items : list I) (s : S) : option V :=
  match items with
  | [] => None
  | it :: rest =>
      match body it s with
      | Return v => Some v
      | Next s' => py_for body rest s'
      end
  end.

(** [enumerate(xs)] *)
Definition enumerate {A : Type} (xs : list A) : list (nat * A) :=
  zip (seq 0 (length xs)) xs.

(** [xs[0]] and [xs[-1]] *)
Definition first_item {A : Type} (xs : list A) : result A :=
  match xs with
  | [] => Err IndexError
  | a :: _ => Ok a
  end.

Definition last_item {A : Type} (xs : list A) : result A :=
  match last xs with
  | None => Err IndexError
  | Some a => Ok a
  end.

(** ** [feature_extractor.FeatureExtractor] *)

Module FeatureExtractor.

Import MouseTrajectoryUtils KeystrokeUtils.

Record t := mk { pauseDistThresh : R; pauseDurThresh : R }.

(** [FeatureExtractor()] with the constructor's default arguments. *)
Definition init : t := mk 5 1000.

(** Local variables of [detectPauses] that the loop body updates. *)
Record pause_vars := mkVars {
  pauseCount : nat;
  totalPauseMs : R;
  isPaused : bool;
  pauseStartMs : R
}.

(** One iteration of the loop of [detectPauses], the trailing
    [if isPaused] block and the [return] included: both are indented
    inside the loop body. *)
Definition detectPauses_body (self : t) (timeDeltas : list R)
    (item : nat * (R * R)) (v : pause_vars) : flow pause_vars (nat * R) :=
  let '(i, (dist, _)) := item in
  let elapsedUntilSegmentStart := pysum (take i timeDeltas) in
  let v :=
    if decide (dist < pauseDistThresh self) then
      if negb (isPaused v) then
        mkVars (pauseCount v) (totalPauseMs v) true elapsedUntilSegmentStart
      else v
    else
      if isPaused v then
        let pauseEndMs := elapsedUntilSegmentStart in
        let pauseDuration := pauseEndMs - pauseStartMs v in
        let v :=
          if decide (pauseDuration >= pauseDurThresh self) then
            mkVars (S (pauseCount v)) pauseDuration (isPaused v) (pauseStartMs v)
          else v in
        mkVars (pauseCount v) (totalPauseMs v) false (pauseStartMs v)
      else v in
  let v :=
    if isPaused v then
      let totalElapsed := pysum timeDeltas in
      let pauseDuration := totalElapsed - pauseStartMs v in
      if decide (pauseDuration >= pauseDurThresh self) then
        mkVars (S (pauseCount v)) (totalPauseMs v + pauseDuration)
               (isPaused v) (pauseStartMs v)
      else v
    else v in
  Return (pauseCount v, totalPauseMs v).

(** The result is [None] when the function returns Python's [None]. *)
Definition detectPauses (self : t) (coords : list (R * R))
    (timeDeltas : list R) : option (nat * R) :=
  let distances := map (fun s => distance (fst s) (snd s)) (segments coords) in
  py_for (detectPauses_body self timeDeltas)
         (enumerate (zip distances timeDeltas))
         (mkVars 0 0 false 0).

(** [a, b = value]: unpacking [None] raises [TypeError]. *)
Definition unpack {A : Type} (value : option A) : result A :=
  match value with
  | Some p => Ok p
  | None => Err TypeError
  end.

(** [[angleBetween(coords[i], coords[i+1], coords[i+2]) ...]] *)
Fixpoint triples {A : Type} (l : list A) : list (A * A * A) :=
  match l with
  | a :: ((b :: c :: _) as rest) => (a, b, c) :: triples rest
  | _ => []
  end.

Definition extractMouseFeatures (self : t) (moves : list Move.t)
  : result (gmap string R) :=
  let features : gmap string R := ∅ in
  if decide (length moves < 2)%nat then
    let features := <["mouseMoveCount" := flen moves]> features in
    let features := <["mouseAvgVelocity" := 0]> features in
    let features := <["mouseStdVelocity" := 0]> features in
    let features := <["mouseMaxVelocity" := 0]> features in
    let features := <["mousePauseCount" := 0]> features in
    let features := <["mouseAvgPauseDurationMs" := 0]> features in
    let features := <["mousePathEfficiency" := 0]> features in
    let features := <["mouseAngularVelocityStd" := 0]> features in
    let features := <["mouseHoverTimeRatio" := 0]> features in
    let features := <["mouseHoverFrequency" := 0]> features in
    Ok features
  else
    '(coords, timeDeltas) ← extractCoordinatesAndTimes moves;
    let distances := map (fun s => distance (fst s) (snd s)) (segments coords) in
    (* [distances] and [timeDeltas] have the same length here *)
    let velocities := zip_with velocityPixelsPerSecond distances timeDeltas in
    let features := <["mouseMoveCount" := flen moves]> features in
    let features :=
      <["mouseAvgVelocity" :=
          if decide (velocities = []) then 0 else np_mean velocities]> features in
    let features :=
      <["mouseStdVelocity" :=
          if decide (length velocities > 1)%nat then np_std velocities else 0]>
        features in
    let features :=
      <["mouseMaxVelocity" :=
          if decide (velocities = []) then 0 else np_max velocities]> features in
    '(pauseCount, totalPauseMs) ← unpack (detectPauses self coords timeDeltas);
    let features := <["mousePauseCount" := INR pauseCount]> features in
    let features :=
      <["mouseAvgPauseDurationMs" := totalPauseMs / INR (Nat.max pauseCount 1)]>
        features in
    let totalDistance := pysum distances in
    c0 ← first_item coords;
    cN ← last_item coords;
    let straightLine := distance c0 cN in
    let features :=
      <["mousePathEfficiency" := totalDistance / Rmax straightLine 1]> features in
    let features : gmap string R :=
      if decide (length coords >= 3)%nat then
        let angles :=
          map (fun abc : R * R * (R * R) * (R * R) =>
               angleBetween (fst (fst abc)) (snd (fst abc)) (snd abc))
            (triples coords) in
        <["mouseAngularVelocityStd" :=
            if decide (length angles > 1)%nat then np_std angles else 0]> features
      else
        <["mouseAngularVelocityStd" := 0]> features in
    let hoverMask := map (fun v => bool_decide (v < 10)) velocities in
    let hoverTimeMs :=
      pysum (map snd (filter (fun p : bool * R => fst p = true)
                             (zip hoverMask timeDeltas))) in
    let totalTimeMs := pysum timeDeltas in
    let features :=
      <["mouseHoverTimeRatio" := hoverTimeMs / Rmax totalTimeMs 1]> features in
    let features :=
      <["mouseHoverFrequency" :=
          INR (length (filter (fun b : bool => b = true) hoverMask))
          / INR (Nat.max (length hoverMask) 1)]> features in
    Ok features.

Definition extractClickFeatures (self : t) (clicks : list Click.t)
  : result (gmap string R) :=
  let features : gmap string R := ∅ in
  if decide (length clicks = 0)%nat then
    let features := <["clickCount" := 0]> features in
    let features := <["clickRatePerSec" := 0]> features in
    let features := <["clickIntervalMeanMs" := 0]> features in
    let features := <["clickIntervalStdMs" := 0]> features in
    let features := <["clickIntervalMinMs" := 0]> features in
    let features := <["clickIntervalMaxMs" := 0]> features in
    let features := <["clickClusteringRatio" := 0]> features in
    let features := <["clickLeftRatio" := 0]> features in
    Ok features
  else
    let features := <["clickCount" := flen clicks]> features in
    features ←
      (if decide (length clicks > 1)%nat then
         timestamps ← mapM (fun c => getitem "ts" (Click.ts c)) clicks;
         let intervals := diffs timestamps in
         let features := <["clickIntervalMeanMs" := np_mean intervals]> features in
         let features :=
           <["clickIntervalStdMs" :=
               if decide (length intervals > 1)%nat then np_std intervals else 0]>
             features in
         let features := <["clickIntervalMinMs" := np_min intervals]> features in
         let features := <["clickIntervalMaxMs" := np_max intervals]> features in
         let rapid := length (filter (fun d : R => d < 500) intervals) in
         let features :=
           <["clickClusteringRatio" := INR rapid / flen intervals]> features in
         tN ← last_item timestamps;
         t0 ← first_item timestamps;
         let totalDurationMs := tN - t0 in
         if decide (totalDurationMs > 0) then
           Ok (<["clickRatePerSec" := flen clicks / totalDurationMs * 1000]> features)
         else
           Ok (<["clickRatePerSec" := 0]> features)
       else
         let features := <["clickRatePerSec" := 0]> features in
         let features := <["clickIntervalMeanMs" := 0]> features in
         let features := <["clickIntervalStdMs" := 0]> features in
         let features := <["clickIntervalMinMs" := 0]> features in
         let features := <["clickIntervalMaxMs" := 0]> features in
         let features := <["clickClusteringRatio" := 0]> features in
         Ok features);
    let buttons := map (fun c => default 0%Z (Click.button c)) clicks in
    let leftClicks := length (filter (fun b : Z => b = 0%Z) buttons) in
    let features := <["clickLeftRatio" := INR leftClicks / flen clicks]> features in
    Ok features.

Definition extractKeystrokeFeatures (self : t) (keys : list Key.t)
  : result (gmap string R) :=
  let features : gmap string R := ∅ in
  if decide (length keys = 0)%nat then
    let features := <["keyCount" := 0]> features in
    let features := <["keyRatePerSec" := 0]> features in
    let features := <["keyInterKeyDelayMeanMs" := 0]> features in
    let features := <["keyInterKeyDelayStdMs" := 0]> features in
    let features := <["keyEntropy" := 0]> features in
    let features := <["keyRapidPresses" := 0]> features in
    Ok features
  else
    let features := <["keyCount" := flen keys]> features in
    features ←
      (if decide (length keys > 1)%nat then
         delays ← interKeyDelays keys;
         if decide (length delays > 0)%nat then
           let features := <["keyInterKeyDelayMeanMs" := np_mean delays]> features in
           let features :=
             <["keyInterKeyDelayStd" :=
                 if decide (length delays > 1)%nat then np_std delays else 0]>
               features in
           let rapid := length (filter (fun d : R => d < 50) delays) in
           Ok (<["keyRapidPresses" := INR rapid]> features)
         else
           let features := <["keyInterKeyDelayMeanMs" := 0]> features in
           let features := <["keyInterKeyDelayStd" := 0]> features in
           Ok (<["keyRapidPresses" := 0]> features)
       else
         let features := <["keyInterKeyDelayMeanMs" := 0]> features in
         let features := <["keyInterKeyDelayStd" := 0]> features in
         Ok (<["keyRapidPresses" := 0]> features));
    let keyCodes := map (fun k => default "Unknown" (Key.code k)) keys in
    let features := <["keyEntropy" := calculateEntropy keyCodes]> features in
    timestamps ← mapM (fun k => getitem "ts" (Key.ts k)) keys;
    if decide (length timestamps >= 2)%nat then
      let durationMs := np_max timestamps - np_min timestamps in
      Ok (<["keyRatePerSec" := flen keys / Rmax durationMs 1 * 1000]> features)
    else
      Ok (<["keyRatePerSec" := 0]> features).

Definition extractTemporalFeatures (self : t) (moves : list Move.t)
    (clicks : list Click.t) (keys : list Key.t) : result (gmap string R) :=
  let features : gmap string R := ∅ in
  let allTimestamps : list R := [] in
  ts ← mapM (fun m => getitem "ts" (Move.ts m)) moves;
  let allTimestamps := allTimestamps ++ ts in
  ts ← mapM (fun c => getitem "ts" (Click.ts c)) clicks;
  let allTimestamps := allTimestamps ++ ts in
  ts ← mapM (fun k => getitem "ts" (Key.ts k)) keys;
  let allTimestamps := allTimestamps ++ ts in
  let features :=
    if decide (length allTimestamps >= 2)%nat then
      let batchDurationMs := np_max allTimestamps - np_min allTimestamps in
      let features := <["batchDurationMs" := batchDurationMs]> features in
      let totalEvents := (length moves + length clicks + length keys)%nat in
      <["eventRatePerSec" := INR totalEvents / Rmax batchDurationMs 1 * 1000]>
        features
    else
      let features := <["batchDurationMs" := 0]> features in
      <["eventRatePerSec" := 0]> features in
  let total := (length moves + length clicks + length keys)%nat in
  let features :=
    if decide (total > 0)%nat then
      let props := [ flen moves / INR total;
                     flen clicks / INR total;
                     flen keys / INR total ] in
      let diversity := calculateEntropy props in
      <["signalDiversityEntropy" := diversity]> features
    else
      <["signalDiversityEntropy" := 0]> features in
  let features :=
    if decide (length moves > 0)%nat then
      let features := <["clickToMoveRatio" := flen clicks / flen moves]> features in
      <["keyToMoveRatio" := flen keys / flen moves]> features
    else
      let features := <["clickToMoveRatio" := 0]> features in
      <["keyToMoveRatio" := 0]> features in
  Ok features.

(** The [batchData] dict: each of the three keys may be absent or hold
    [None], which [.get(key, []) or []] both turn into the empty list. *)
Record batchData := mkBatch {
  mouseMoves : option (list Move.t);
  clicks : option (list Click.t);
  keys : option (list Key.t)
}.

(** [features.update(other)]: keys of [other] override. *)
Definition update (features other : gmap string R) : gmap string R :=
  other ∪ features.

Definition extractBatchFeatures (self : t) (batch : batchData)
  : result (gmap string R) :=
  let features : gmap string R := ∅ in
  let moves := default [] (mouseMoves batch) in
  let clicks := default [] (clicks batch) in
  let keys := default [] (keys batch) in
  let features :=
    <["batch_event_count" := INR (length moves + length clicks + length keys)]>
      features in
  let features :=
    <["has_mouse_moves" := if decide (length moves > 0)%nat then 1 else 0]>
      features in
  let features :=
    <["has_clicks" := if decide (length clicks > 0)%nat then 1 else 0]> features in
  let features :=
    <["has_keys" := if decide (length keys > 0)%nat then 1 else 0]> features in
  mouseFeatures ← extractMouseFeatures self moves;
  let features := update features mouseFeatures in
  clickFeatures ← extractClickFeatures self clicks;
  let features := update features clickFeatures in
  keystrokeFeatures ← extractKeystrokeFeatures self keys;
  let features := update features keystrokeFeatures in
  temporalFeatures ← extractTemporalFeatures self moves clicks keys;
  let features := update features temporalFeatures in
  Ok features.

End FeatureExtractor.

(** ** pandas operations used by the session aggregator

    The library's documented defaults: [Series.std] is the sample
    standard deviation ([ddof=1]) and is NaN when fewer than two values
    are present; [Series.quantile] interpolates linearly between the two
    nearest order statistics. *)

Module pd.

(** A float as stored in a result row: a real number or NaN. *)
Inductive float : Type :=
| Finite (r : R)
| NaN.

(** [Series.dropna()]: a missing cell is [None]. *)
Definition dropna (cells : list (option R)) : list R :=
  omap (fun c : option R => c) cells.

Definition mean (values : list R) : float :=
  match values with
  | [] => NaN
  | _ => Finite (pysum values / flen values)
  end.

Definition std (values : list R) : float :=
  let ddof := 1%nat in
  if decide (length values <= ddof)%nat then NaN
  else
    let m := pysum values / flen values in
    Finite (sqrt (pysum (map (fun x => (x - m) * (x - m)) values)
                  / INR (length values - ddof))).

Definition min (values : list R) : float :=
  match values with
  | [] => NaN
  | _ => Finite (np_min values)
  end.

Definition max (values : list R) : float :=
  match values with
  | [] => NaN
  | _ => Finite (np_max values)
  end.

Fixpoint insert_sorted (x : R) (l : list R) : list R :=
  match l with
  | [] => [x]
  | y :: l' => if decide (x <= y) then x :: l else y :: insert_sorted x l'
  end.

Definition sort (l : list R) : list R := foldr insert_sorted [] l.

(** [Series.quantile(q)] for the rational [q = qnum / qden]. *)
Definition quantile (values : list R) (qnum qden : nat) : float :=
  match values with
  | [] => NaN
  | _ =>
      let sorted := sort values in
      let n := length values in
      let pos := (qnum * (n - 1))%nat in
      let lo := (pos / qden)%nat in
      let hi := Nat.min (lo + 1) (n - 1) in
      let frac := INR (pos mod qden) / INR qden in
      let vlo := nth lo sorted 0 in
      let vhi := nth hi sorted 0 in
      Finite (vlo + frac * (vhi - vlo))
  end.

(** [Series.unique()]: distinct values in order of first appearance. *)
Fixpoint unique {A : Type} `{EqDecision A} (l : list A) : list A :=
  match l with
  | [] => []
  | a :: l' => a :: filter (fun b => b <> a) (unique l')
  end.

End pd.

(** ** [dataset_builder.DatasetBuilder] *)

Module DatasetBuilder.

(** A row of the frame returned by [SignalDataLoader.loadSignals]. *)
Record signalRow := mkSignal {
  sig_sessionID : string;
  sig_timestamp : string;
  sig_timestampRelativeMs : Z;
  sig_mouseMoves : list Move.t;
  sig_clicks : list Click.t;
  sig_keys : list Key.t
}.

(** A row of the batch-level frame: the three identifying columns and
    the feature columns; a feature column absent from [feats] is a
    missing cell of that row.  The [label] column is always [None]. *)
Record featureRow := mkFeature {
  sessionID : string;
  timestamp : string;
  timestampRelativeMs : Z;
  feats : gmap string R
}.

(** A row of the session-level frame. *)
Record sessionRow := mkSession {
  ses_sessionID : string;
  batchCount : nat;
  stats : gmap string pd.float
}.

(** The builder: [loadSignals] stands for the frame that
    [self.loader.loadSignals()] returns. *)
Record t := mk {
  loadSignals : list signalRow;
  extractor : FeatureExtractor.t
}.

(** The frame that the builder returns.  The argument [outputCSVPath]
    and the two writes that end the function ([parent.mkdir] and
    [to_csv]) are left out: they do not change the returned frame, and
    they run after every row has been extracted.  A run in which a write
    raises [OSError] is outside this model, so nothing is stated about
    when the builder returns, only about what it returns and about the
    exceptions raised before the writes.  The empty frame
    [pd.DataFrame()] is the empty list. *)
Definition buildBatchLevelDataset (self : t) : result (list featureRow) :=
  let signalsDf := loadSignals self in
  if decide (length signalsDf = 0)%nat then Ok []
  else
    featureRows ←
      mapM (fun row =>
              let batchData :=
                FeatureExtractor.mkBatch (Some (sig_mouseMoves row))
                                         (Some (sig_clicks row))
                                         (Some (sig_keys row)) in
              feats ← FeatureExtractor.extractBatchFeatures (extractor self) batchData;
              Ok (mkFeature (sig_sessionID row) (sig_timestamp row)
                            (sig_timestampRelativeMs row) feats))
           signalsDf;
    Ok featureRows.

(** The six statistics of one feature column of one session. *)
Definition columnStats (sessionData : list featureRow) (col : string)
    (row : gmap string pd.float) : gmap string pd.float :=
  let values := pd.dropna (map (fun r => feats r !! col) sessionData) in
  if decide (length values > 0)%nat then
    let row := <[col +:+ "_mean" := pd.mean values]> row in
    let row := <[col +:+ "_std" := pd.std values]> row in
    let row := <[col +:+ "_min" := pd.min values]> row in
    let row := <[col +:+ "_max" := pd.max values]> row in
    let row := <[col +:+ "_p50" := pd.quantile values 50 100]> row in
    <[col +:+ "_p95" := pd.quantile values 95 100]> row
  else
    let row := <[col +:+ "_mean" := pd.Finite 0]> row in
    let row := <[col +:+ "_std" := pd.Finite 0]> row in
    let row := <[col +:+ "_min" := pd.Finite 0]> row in
    let row := <[col +:+ "_max" := pd.Finite 0]> row in
    let row := <[col +:+ "_p50" := pd.Finite 0]> row in
    <[col +:+ "_p95" := pd.Finite 0]> row.

(** The columns [sessionID], [timestamp], [timestampRelativeMs] and
    [label] that the source excludes are fields of [featureRow] here, so
    the feature columns are the keys of the [feats] maps.  As for the
    batch-level builder, the writes that end the function are left
    out. *)
Definition buildSessionLevelDataset (self : t) : result (list sessionRow) :=
  batchDf ← buildBatchLevelDataset self;
  if decide (length batchDf = 0)%nat then Ok []
  else
    let featureCols : list string :=
      elements (⋃ (map (fun r => dom (feats r)) batchDf) : gset string) in
    let sessionRows :=
      map (fun sessionId =>
             let sessionData :=
               filter (fun r => sessionID r = sessionId) batchDf in
             let row := fold_left (fun row col => columnStats sessionData col row)
                                  featureCols ∅ in
             mkSession sessionId (length sessionData) row)
          (pd.unique (map sessionID batchDf)) in
    Ok sessionRows.

End DatasetBuilder.

(** ** The pause detector as the design describes it

    A two-state machine run over every segment in order, with one
    end-of-sequence evaluation of a pause that is still open. *)

Module PauseSpec.

Inductive state : Type :=
| Moving
| Paused (pauseStartMs : R).

Record machine := mkMachine {
  st : state;
  elapsed : R;
  count : nat;
  total : R
}.

Definition start : machine := mkMachine Moving 0 0 0.

Section Thresholds.
Variables (distThresh durThresh : R).

(** Closes a pause that began at [s] and ends at offset [e]. *)
Definition close (m : machine) (s e : R) : machine :=
  let duration := e - s in
  if decide (duration >= durThresh)
  then mkMachine Moving (elapsed m) (S (count m)) (total m + duration)
  else mkMachine Moving (elapsed m) (count m) (total m).

Definition step (m : machine) (segment : R * R) : machine :=
  let '(dist, dt) := segment in
  let m :=
    match st m with
    | Moving =>
        if decide (dist < distThresh)
        then mkMachine (Paused (elapsed m)) (elapsed m) (count m) (total m)
        else m
    | Paused s =>
        if decide (dist < distThresh) then m else close m s (elapsed m)
    end in
  mkMachine (st m) (elapsed m + dt) (count m) (total m).

Definition finish (m : machine) : nat * R :=
  match st m with
  | Moving => (count m, total m)
  | Paused s => let m := close m s (elapsed m) in (count m, total m)
  end.

Definition run (segs : list (R * R)) : nat * R :=
  finish (fold_left step segs start).
End Thresholds.

Definition detectPauses (self : FeatureExtractor.t) (coords : list (R * R))
    (timeDeltas : list R) : nat * R :=
  let distances :=
    map (fun s => MouseTrajectoryUtils.distance (fst s) (snd s))
        (MouseTrajectoryUtils.segments coords) in
  run (FeatureExtractor.pauseDistThresh self) (FeatureExtractor.pauseDurThresh self)
      (zip distances timeDeltas).

End PauseSpec.

(** ** Frequencies *)

Section Frequencies.
Context {A : Type} `{EqDecision A}.

(** Number of items of [items] equal to [x]. *)
Definition occurrences (x : A) (items : list A) : nat :=
  length (filter (fun y => y = x) items).

(** Relative frequency of [x] in [items]. *)
Definition frequency (x : A) (items : list A) : R :=
  INR (occurrences x items) / INR (length items).

(** What the table holds after the items [l] have been counted. *)
Definition counts_of (c : list (A * nat)) (l : list A) : Prop :=
  NoDup c.*1
  ∧ (∀ x, x ∈ c.*1 ↔ x ∈ l)
  ∧ Forall (λ e, e.2 = occurrences e.1 l) c
  ∧ sum_list c.*2 = length l.
End Frequencies.

(** The summand [p * log2 p] of Shannon's formula. *)
Definition plogp (p : R) : R := p * log2 p.

(** ** Signal mix *)

(** The proportion vector [props] that [extractTemporalFeatures] builds
    for [m] moves, [c] clicks and [k] keys. *)
Definition shares (m c k : nat) : list R :=
  let total := (m + c + k)%nat in
  [INR m / INR total; INR c / INR total; INR k / INR total].

(** The value it stores under [signalDiversityEntropy]. *)
Definition diversity (m c k : nat) : R :=
  if decide (m + c + k > 0)%nat
  then KeystrokeUtils.calculateEntropy (shares m c k)
  else 0.

(** The numbers of moves, clicks and keys of a batch. *)
Definition signal_lengths (batch : FeatureExtractor.batchData) : nat * nat * nat :=
  (length (default [] (FeatureExtractor.mouseMoves batch)),
   length (default [] (FeatureExtractor.clicks batch)),
   length (default [] (FeatureExtractor.keys batch))).

(** Two triples have the same pattern of equal components. *)
Definition same_equalities {A B : Type} (p q r : A) (p' q' r' : B) : Prop :=
  (p = q ↔ p' = q') ∧ (p = r ↔ p' = r') ∧ (q = r ↔ q' = r').

(** ** Feature names

    The keys each extractor writes, as sets. *)

Definition mouse_keys : gset string :=
  {[ "mouseMoveCount"; "mouseAvgVelocity"; "mouseStdVelocity"; "mouseMaxVelocity";
     "mousePauseCount"; "mouseAvgPauseDurationMs"; "mousePathEfficiency";
     "mouseAngularVelocityStd"; "mouseHoverTimeRatio"; "mouseHoverFrequency" ]}.

Definition click_keys : gset string :=
  {[ "clickCount"; "clickRatePerSec"; "clickIntervalMeanMs"; "clickIntervalStdMs";
     "clickIntervalMinMs"; "clickIntervalMaxMs"; "clickClusteringRatio";
     "clickLeftRatio" ]}.

Definition keystroke_keys (no_keys : bool) : gset string :=
  {[ "keyCount"; "keyRatePerSec"; "keyInterKeyDelayMeanMs"; "keyEntropy";
     "keyRapidPresses" ]}
  ∪ (if no_keys then {[ "keyInterKeyDelayStdMs" ]} else {[ "keyInterKeyDelayStd" ]}).

Definition temporal_keys : gset string :=
  {[ "batchDurationMs"; "eventRatePerSec"; "signalDiversityEntropy";
     "clickToMoveRatio"; "keyToMoveRatio" ]}.

Definition batch_keys (no_keys : bool) : gset string :=
  {[ "batch_event_count"; "has_mouse_moves"; "has_clicks"; "has_keys" ]}
  ∪ mouse_keys ∪ click_keys ∪ keystroke_keys no_keys ∪ temporal_keys.

(** ** Malformed events *)

(** The result is an exception of class [KeyError]. *)
Definition key_error {A : Type} (r : result A) : Prop :=
  ∃ k : string, r = Err (KeyError k).

(** The call returns normally or raises [KeyError], nothing else. *)
Definition ok_or_key_error {A : Type} (r : result A) : Prop :=
  (∃ a, r = Ok a) ∨ key_error r.

(** Some event of the batch has no [ts] field. *)
Definition missing_timestamp (moves : list Move.t) (clicks : list Click.t)
    (keys : list Key.t) : Prop :=
  (∃ m, m ∈ moves ∧ Move.ts m = None)
  ∨ (∃ c, c ∈ clicks ∧ Click.ts c = None)
  ∨ (∃ k, k ∈ keys ∧ Key.ts k = None).

(** The event with the default that [.get] substitutes written in. *)
Definition fill_click (c : Click.t) : Click.t :=
  Click.mk (Click.ts c) (Some (default 0%Z (Click.button c))).

Definition fill_key (k : Key.t) : Key.t :=
  Key.mk (Some (default "Unknown" (Key.code k))) (Key.ts k).

Definition with_defaults (batch : FeatureExtractor.batchData)
  : FeatureExtractor.batchData :=
  FeatureExtractor.mkBatch
    (FeatureExtractor.mouseMoves batch)
    (map fill_click <$> FeatureExtractor.clicks batch)
    (map fill_key <$> FeatureExtractor.keys batch).

(** Some event of the batch lacks one of its fields. *)
Definition malformed (batch : FeatureExtractor.batchData) : Prop :=
  (∃ m, m ∈ default [] (FeatureExtractor.mouseMoves batch)
        ∧ (Move.x m = None ∨ Move.y m = None ∨ Move.ts m = None))
  ∨ (∃ c, c ∈ default [] (FeatureExtractor.clicks batch)
          ∧ (Click.ts c = None ∨ Click.button c = None))
  ∨ (∃ k, k ∈ default [] (FeatureExtractor.keys batch)
          ∧ (Key.code k = None ∨ Key.ts k = None)).

(** ** Paths *)

(** [sum(distances)] over the segments of a path. *)
Definition pathLength (coords : list (R * R)) : R :=
  pysum (map (λ s, MouseTrajectoryUtils.distance s.1 s.2)
             (MouseTrajectoryUtils.segments coords)).

(** A collinear path that never reverses: every segment is a
    non-negative multiple of one direction vector [(dx, dy)]. *)
Definition straight_path (coords : list (R * R)) : Prop :=
  ∃ dx dy : R,
    Forall (λ s : (R * R) * (R * R),
              ∃ step : R, 0 <= step
                ∧ s.2.1 = s.1.1 + step * dx ∧ s.2.2 = s.1.2 + step * dy)
           (MouseTrajectoryUtils.segments coords).

(** ** The path efficiency on binary64 numbers

    The arithmetic of [mousePathEfficiency] (the list of segment
    lengths, [sum], [max(straightLine, 1.0)] and the division) on IEEE
    binary64 numbers, each operation rounding to nearest.  [dx**2] is
    the product [dx * dx], which [pow] returns whenever the square is a
    binary64 number, as it is for the whole-number coordinates used
    below. *)
Module Binary64.
Import PrimFloat.

Definition distance (pointOne pointTwo : float * float) : float :=
  let '(x1, y1) := pointOne in
  let '(x2, y2) := pointTwo in
  let dx := sub x2 x1 in
  let dy := sub y2 y1 in
  sqrt (add (mul dx dx) (mul dy dy)).

(** [sum(xs)]: from [0], left to right. *)
Definition pysum (xs : list float) : float := fold_left add xs 0%float.

(** [max(a, b)] keeps [a] unless [b] is greater. *)
Definition pymax (a b : float) : float := if ltb a b then b else a.

Definition mousePathEfficiency (coords : list (float * float)) : option float :=
  c0 ← head coords;
  cN ← last coords;
  let distances :=
    map (λ s, distance s.1 s.2) (MouseTrajectoryUtils.segments coords) in
  let totalDistance := pysum distances in
  let straightLine := distance c0 cN in
  Some (div totalDistance (pymax straightLine 1%float)).

End Binary64.

(** ** Notions used by the properties of the extractors and builders *)

(** The closed form of the entropy of a list of three counts: 0 when
    the three are equal, [log2 3] when they are pairwise different, and
    the entropy of the shares 2/3 and 1/3 otherwise. *)
Definition diversity_value (m c k : nat) : R :=
  if decide (m = c ∧ c = k) then 0
  else if decide (m ≠ c ∧ m ≠ k ∧ c ≠ k) then log2 3
  else log2 3 - 2 / 3.

(** The batches on which no extractor meets a missing key: every event
    has its [ts], and the moves have their [x] and [y] once there are at
    least two of them. *)
Definition well_formed (batch : FeatureExtractor.batchData) : Prop :=
  let moves := default [] (FeatureExtractor.mouseMoves batch) in
  Forall (λ m, is_Some (Move.ts m)) moves
  ∧ Forall (λ c, is_Some (Click.ts c)) (default [] (FeatureExtractor.clicks batch))
  ∧ Forall (λ k, is_Some (Key.ts k)) (default [] (FeatureExtractor.keys batch))
  ∧ ((2 <= length moves)%nat →
     Forall (λ m, is_Some (Move.x m) ∧ is_Some (Move.y m)) moves).

(** The [batchData] dictionary that [buildBatchLevelDataset] makes of a
    loaded row. *)
Definition batch_of (row : DatasetBuilder.signalRow) : FeatureExtractor.batchData :=
  FeatureExtractor.mkBatch (Some (DatasetBuilder.sig_mouseMoves row))
                           (Some (DatasetBuilder.sig_clicks row))
                           (Some (DatasetBuilder.sig_keys row)).

(** The names of the six statistics of a feature column. *)
Definition stat_columns (col : string) : list string :=
  [col +:+ "_mean"; col +:+ "_std"; col +:+ "_min"; col +:+ "_max";
   col +:+ "_p50"; col +:+ "_p95"].

(** * Properties *)

Import MouseTrajectoryUtils KeystrokeUtils FeatureExtractor.

(** ** Geometry *)

Lemma distance_nonneg (p q : R * R) : 0 <= distance p q.
Proof. destruct p, q. apply sqrt_pos. Qed.

Lemma distance_horizontal (x1 x2 y : R) : distance (x1, y) (x2, y) = Rabs (x2 - x1).
Proof.
  unfold distance. replace ((x2 - x1) ^ 2 + (y - y) ^ 2) with (Rsqr (x2 - x1)).
  - apply sqrt_Rsqr_abs.
  - unfold Rsqr. ring.
Qed.

Lemma distance_same (p : R * R) : distance p p = 0.
Proof.
  destruct p as [x y]. rewrite distance_horizontal.
  replace (x - x) with 0 by ring. apply Rabs_R0.
Qed.

(** ** Velocity *)



(** ** Pause detection *)

(** The loop body always returns, so only the first segment is read. *)
Lemma detectPauses_first_segment (self : FeatureExtractor.t) (coords : list (R * R))
    (timeDeltas : list R) :
  detectPauses self coords timeDeltas =
  match zip (map (fun s => distance (fst s) (snd s)) (segments coords)) timeDeltas with
  | [] => None
  | seg :: _ =>
      match detectPauses_body self timeDeltas (0%nat, seg) (mkVars 0 0 false 0) with
      | Return v => Some v
      | Next _ => None
      end
  end.
Proof.
  unfold detectPauses, enumerate.
  destruct (zip _ timeDeltas) as [| seg rest]; [reflexivity |].
  cbn [length seq zip zip_with py_for].
  destruct seg as [dist dt]. reflexivity.
Qed.

(** A first segment that moves makes the code answer [(0, 0)], whatever
    the later segments are. *)
Lemma detectPauses_moving_first (self : FeatureExtractor.t) (p q : R * R)
    (coords : list (R * R)) (dt : R) (timeDeltas : list R) :
  ~ distance p q < pauseDistThresh self ->
  detectPauses self (p :: q :: coords) (dt :: timeDeltas) = Some (0%nat, 0).
Proof.
  intros Hmove. rewrite detectPauses_first_segment.
  cbn [segments map zip zip_with fst snd]. unfold detectPauses_body.
  destruct (decide (distance p q < pauseDistThresh self)); [contradiction |].
  reflexivity.
Qed.

(** The transitions of the design's machine, one lemma per case. *)
Section SpecSteps.
Variables (distThresh durThresh : R).

Lemma spec_step_keeps_moving (e : R) (c : nat) (tot dist dt : R) :
  ~ dist < distThresh ->
  PauseSpec.step distThresh durThresh (PauseSpec.mkMachine PauseSpec.Moving e c tot)
                 (dist, dt)
  = PauseSpec.mkMachine PauseSpec.Moving (e + dt) c tot.
Proof.
  intros H. unfold PauseSpec.step. cbn [PauseSpec.st].
  destruct (decide (dist < distThresh)); [contradiction | reflexivity].
Qed.

Lemma spec_step_pause_begins (e : R) (c : nat) (tot dist dt : R) :
  dist < distThresh ->
  PauseSpec.step distThresh durThresh (PauseSpec.mkMachine PauseSpec.Moving e c tot)
                 (dist, dt)
  = PauseSpec.mkMachine (PauseSpec.Paused e) (e + dt) c tot.
Proof.
  intros H. unfold PauseSpec.step. cbn [PauseSpec.st].
  destruct (decide (dist < distThresh)); [reflexivity | contradiction].
Qed.

Lemma spec_step_pause_goes_on (s e : R) (c : nat) (tot dist dt : R) :
  dist < distThresh ->
  PauseSpec.step distThresh durThresh
                 (PauseSpec.mkMachine (PauseSpec.Paused s) e c tot) (dist, dt)
  = PauseSpec.mkMachine (PauseSpec.Paused s) (e + dt) c tot.
Proof.
  intros H. unfold PauseSpec.step. cbn [PauseSpec.st].
  destruct (decide (dist < distThresh)); [reflexivity | contradiction].
Qed.
End SpecSteps.

(** C1 (fails on the code): on three segments of which the last two form
    a pause of 1200 ms, the two-state machine of the design counts one
    pause of 1200 ms, whereas [detectPauses] returns after its first
    iteration with no pause at all. *)
Theorem detectPauses_stops_after_first_segment :
  let coords := [(0, 0); (100, 0); (100, 0); (100, 0)] in
  let timeDeltas := [100; 600; 600] in
  detectPauses init coords timeDeltas = Some (0%nat, 0)
  /\ PauseSpec.detectPauses init coords timeDeltas = (1%nat, 1200)
  /\ detectPauses init coords timeDeltas
     <> Some (PauseSpec.detectPauses init coords timeDeltas).
Proof.
  intros coords timeDeltas.
  assert (Hcode : detectPauses init coords timeDeltas = Some (0%nat, 0)).
  { apply detectPauses_moving_first. rewrite distance_horizontal.
    cbn [pauseDistThresh init]. rewrite Rabs_pos_eq; lra. }
  assert (Hspec : PauseSpec.detectPauses init coords timeDeltas = (1%nat, 1200)).
  { unfold PauseSpec.detectPauses, coords, timeDeltas.
    cbn [segments map zip zip_with fst snd].
    rewrite distance_horizontal, distance_same.
    replace (Rabs (100 - 0)) with 100 by (rewrite Rabs_pos_eq; lra).
    unfold PauseSpec.run, PauseSpec.start. cbn [fold_left pauseDistThresh pauseDurThresh init].
    rewrite spec_step_keeps_moving by (cbn; lra).
    rewrite spec_step_pause_begins by (cbn; lra).
    rewrite spec_step_pause_goes_on by (cbn; lra).
    unfold PauseSpec.finish, PauseSpec.close.
    cbn [PauseSpec.st PauseSpec.elapsed PauseSpec.count PauseSpec.total].
    destruct (decide (_ >= 1000)) as [_ | Hshort]; [| lra].
    cbn [PauseSpec.count PauseSpec.total]. f_equal. lra. }
  split; [exact Hcode |]. split; [exact Hspec |].
  rewrite Hcode, Hspec. intros Heq. injection Heq as Hn _. discriminate Hn.
Qed.

(** ** Mouse features: the degenerate case *)

(** C6: with fewer than two moves the mouse extractor succeeds, reports
    the number of moves as [mouseMoveCount] and sets each of the nine
    other mouse features to [0]; no other key is present. *)
Theorem extractMouseFeatures_degenerate (self : FeatureExtractor.t)
    (moves : list Move.t) :
  (length moves < 2)%nat ->
  exists features : gmap string R,
    extractMouseFeatures self moves = Ok features
    /\ features !! "mouseMoveCount" = Some (INR (length moves))
    /\ (forall name : string,
          name ∈ [ "mouseAvgVelocity"; "mouseStdVelocity"; "mouseMaxVelocity";
                   "mousePauseCount"; "mouseAvgPauseDurationMs";
                   "mousePathEfficiency"; "mouseAngularVelocityStd";
                   "mouseHoverTimeRatio"; "mouseHoverFrequency" ] ->
          features !! name = Some 0)
    /\ (forall name : string,
          is_Some (features !! name) ->
          name ∈ [ "mouseMoveCount";
                   "mouseAvgVelocity"; "mouseStdVelocity"; "mouseMaxVelocity";
                   "mousePauseCount"; "mouseAvgPauseDurationMs";
                   "mousePathEfficiency"; "mouseAngularVelocityStd";
                   "mouseHoverTimeRatio"; "mouseHoverFrequency" ]).
Proof.
  intros Hlen. unfold extractMouseFeatures.
  destruct (decide (length moves < 2)%nat) as [_ | Hge]; [| contradiction].
  eexists. split; [reflexivity |]. split; [| split].
  - reflexivity.
  - intros name Hin.
    repeat (apply elem_of_cons in Hin as [-> | Hin]; [reflexivity |]).
    by apply elem_of_nil in Hin.
  - intros name Hv. apply elem_of_dom in Hv.
    rewrite !dom_insert_L, dom_empty_L in Hv.
    repeat (apply elem_of_union in Hv as [Hv | Hv];
            [apply elem_of_singleton in Hv as ->; repeat constructor |]).
    by apply elem_of_empty in Hv.
Qed.

Lemma extractMouseFeatures_degenerate_witness :
  exists features : gmap string R,
    extractMouseFeatures init [Move.mk (Some 10) None (Some 1000)] = Ok features
    /\ features !! "mouseMoveCount" = Some 1
    /\ features !! "mousePathEfficiency" = Some 0.
Proof.
  destruct (extractMouseFeatures_degenerate init [Move.mk (Some 10) None (Some 1000)])
    as (features & Hok & Hcount & Hzero & _).
  - simpl. lia.
  - exists features. split; [exact Hok |]. split.
    + rewrite Hcount. simpl. reflexivity.
    + apply Hzero. repeat constructor.
Defined.

(** ** Entropy *)

Lemma fold_left_Rplus (xs : list R) (a : R) : fold_left Rplus xs a = a + pysum xs.
Proof.
  unfold pysum. revert a. induction xs as [| x xs IH]; intros a; simpl.
  - lra.
  - rewrite (IH (a + x)), (IH (0 + x)). lra.
Qed.

Lemma pysum_cons (x : R) (xs : list R) : pysum (x :: xs) = x + pysum xs.
Proof. unfold pysum at 1. simpl. rewrite fold_left_Rplus. lra. Qed.

Lemma pysum_app (xs ys : list R) : pysum (xs ++ ys) = pysum xs + pysum ys.
Proof.
  induction xs as [| x xs IH]; simpl.
  - unfold pysum at 2. simpl. lra.
  - rewrite !pysum_cons, IH. lra.
Qed.

Lemma pysum_replicate (n : nat) (x : R) : pysum (replicate n x) = INR n * x.
Proof.
  induction n as [| n IH].
  - simpl. unfold pysum. simpl. lra.
  - cbn [replicate]. rewrite pysum_cons, IH, S_INR. lra.
Qed.

Section CounterFacts.
Context {A : Type} `{EqDecision A}.

Lemma occurrences_snoc (y x : A) (l : list A) :
  occurrences y (l ++ [x]) = if decide (x = y) then S (occurrences y l) else occurrences y l.
Proof.
  unfold occurrences. rewrite filter_app, length_app.
  rewrite filter_cons, filter_nil. destruct (decide (x = y)); simpl; lia.
Qed.

Lemma occurrences_pos (x : A) (l : list A) : x ∈ l ↔ (0 < occurrences x l)%nat.
Proof.
  unfold occurrences. split.
  - intros Hin. assert (Hf : x ∈ filter (λ y, y = x) l) by (apply list_elem_of_filter; done).
    destruct (filter _ l); [by apply elem_of_nil in Hf | simpl; lia].
  - intros Hpos. destruct (filter (λ y, y = x) l) as [| z zs] eqn:E; [simpl in Hpos; lia |].
    assert (Hz : z ∈ filter (λ y, y = x) l) by (rewrite E; apply elem_of_cons; by left).
    apply list_elem_of_filter in Hz as [-> Hz]. done.
Qed.

Lemma counter_add_keys (x : A) (c : list (A * nat)) :
  (counter_add x c).*1 = if decide (x ∈ c.*1) then c.*1 else c.*1 ++ [x].
Proof.
  induction c as [| [y n] c IH]; csimpl.
  - rewrite ?decide_False by apply not_elem_of_nil. reflexivity.
  - destruct (decide (x = y)) as [-> | Hne]; csimpl.
    + rewrite decide_True; [done | apply elem_of_cons; by left].
    + rewrite IH. destruct (decide (x ∈ c.*1)) as [Hin | Hnin].
      * rewrite decide_True; [done | apply elem_of_cons; by right].
      * rewrite decide_False; [done |].
        intros Hin. apply elem_of_cons in Hin as [? | ?]; done.
Qed.

Lemma counter_add_total (x : A) (c : list (A * nat)) :
  sum_list (counter_add x c).*2 = S (sum_list c.*2).
Proof.
  induction c as [| [y n] c IH]; csimpl; [done |].
  destruct (decide (x = y)); csimpl; [done |]. rewrite IH. lia.
Qed.

Lemma counter_add_counts (f : A → nat) (x : A) (c : list (A * nat)) :
  NoDup c.*1 →
  (x ∉ c.*1 → f x = 0%nat) →
  Forall (λ e, e.2 = f e.1) c →
  Forall (λ e, e.2 = if decide (x = e.1) then S (f e.1) else f e.1) (counter_add x c).
Proof.
  induction c as [| [y n] c IH]; csimpl; intros Hnd Hfresh Hall.
  - constructor; [| constructor]. simpl.
    rewrite decide_True by done. rewrite Hfresh; [done | apply not_elem_of_nil].
  - apply NoDup_cons in Hnd as [Hy Hnd]. apply Forall_cons in Hall as [Hn Hall].
    simpl in Hn. destruct (decide (x = y)) as [-> | Hne].
    + constructor; simpl.
      * rewrite decide_True by done. by rewrite Hn.
      * apply Forall_forall. intros [z k] Hin. simpl.
        rewrite Forall_forall in Hall. specialize (Hall _ Hin). simpl in Hall.
        rewrite decide_False; [done |]. intros ->. apply Hy.
        apply list_elem_of_fmap. by exists (z, k).
    + constructor; simpl.
      * by rewrite decide_False.
      * apply IH; [done | | done]. intros Hx. apply Hfresh.
        intros Hin. apply elem_of_cons in Hin as [? | ?]; done.
Qed.

Lemma counts_of_add (c : list (A * nat)) (l : list A) (x : A) :
  counts_of c l → counts_of (counter_add x c) (l ++ [x]).
Proof.
  intros (Hnd & Hin & Hall & Hsum). repeat split.
  - rewrite counter_add_keys. case_decide as Hx; [done |].
    apply NoDup_app. split; [done |]. split; [| apply NoDup_singleton].
    intros y Hy Hy'. apply list_elem_of_singleton in Hy' as ->. done.
  - rewrite counter_add_keys. intros Hx.
    case_decide as Hc; [apply elem_of_app; left; by apply Hin |].
    apply elem_of_app in Hx as [Hx | Hx]; apply elem_of_app;
      [left; by apply Hin | by right].
  - rewrite counter_add_keys. intros Hx. apply elem_of_app in Hx as [Hx | Hx].
    + case_decide; [by apply Hin | apply elem_of_app; left; by apply Hin].
    + apply list_elem_of_singleton in Hx as ->.
      case_decide as Hc; [done | apply elem_of_app; right; by apply list_elem_of_singleton].
  - eapply Forall_impl.
    + apply (counter_add_counts (λ y, occurrences y l)); [done | | done].
      intros Hx. destruct (occurrences x l) eqn:E; [done |].
      exfalso. apply Hx, Hin, occurrences_pos. lia.
    + intros e He. simpl in He. by rewrite occurrences_snoc.
  - rewrite counter_add_total, length_app, Hsum. simpl. lia.
Qed.

Lemma counts_of_fold (items : list A) (c : list (A * nat)) (l : list A) :
  counts_of c l →
  counts_of (fold_left (λ c x, counter_add x c) items c) (l ++ items).
Proof.
  revert c l. induction items as [| x items IH]; intros c l Hc; simpl.
  - by rewrite app_nil_r.
  - replace (l ++ x :: items) with ((l ++ [x]) ++ items) by (by rewrite <- app_assoc).
    apply IH. by apply counts_of_add.
Qed.

Lemma Counter_counts (items : list A) : counts_of (Counter items) items.
Proof.
  apply (counts_of_fold items [] []). repeat split; try done.
  apply NoDup_nil_2.
Qed.

Lemma Counter_values (items : list A) :
  (Counter items).*2 = map (λ x, occurrences x items) (Counter items).*1.
Proof.
  destruct (Counter_counts items) as (_ & _ & Hall & _).
  induction Hall as [| [y n] c Hy Hall IH]; csimpl; [done |].
  simpl in Hy. by rewrite Hy, IH.
Qed.
End CounterFacts.

Lemma entropy_fold (total : nat) (ns : list nat) (e0 : R) :
  (0 < total)%nat →
  Forall (λ n, 0 < n)%nat ns →
  fold_left (λ entropy count,
               let p := INR count / INR total in
               if decide (p > 0) then entropy - p * log2 p else entropy) ns e0
  = e0 - pysum (map (λ n, plogp (INR n / INR total)) ns).
Proof.
  intros Htot Hpos. revert e0. induction Hpos as [| n ns Hn Hpos IH]; intros e0.
  - simpl. unfold pysum. simpl. lra.
  - cbn [fold_left map]. rewrite pysum_cons.
    assert (Hp : INR n / INR total > 0).
    { apply Rdiv_lt_0_compat; apply lt_0_INR; lia. }
    cbv zeta. rewrite decide_True by done. rewrite IH. unfold plogp. lra.
Qed.

Lemma pysum_Permutation (xs ys : list R) : xs ≡ₚ ys → pysum xs = pysum ys.
Proof.
  induction 1 as [| x xs ys _ IH | x y xs | xs ys zs _ IH1 _ IH2].
  - reflexivity.
  - by rewrite !pysum_cons, IH.
  - rewrite !pysum_cons. lra.
  - by rewrite IH1.
Qed.

Section EntropyFacts.
Context {A : Type} `{EqDecision A}.

Lemma Counter_keys_Permutation (items groups : list A) :
  NoDup groups → (∀ x, x ∈ groups ↔ x ∈ items) → (Counter items).*1 ≡ₚ groups.
Proof.
  intros Hnd Hin. destruct (Counter_counts items) as (Hnd' & Hin' & _ & _).
  apply NoDup_Permutation; [done | done |].
  intros x. by rewrite Hin', Hin.
Qed.

Lemma calculateEntropy_formula (items groups : list A) :
  NoDup groups → (∀ x, x ∈ groups ↔ x ∈ items) →
  calculateEntropy items = - pysum (map (λ x, plogp (frequency x items)) groups).
Proof.
  intros Hnd Hin. unfold calculateEntropy.
  destruct (decide (length items = 0%nat)) as [Hlen | Hlen].
  - apply length_zero_iff_nil in Hlen as ->.
    destruct groups as [| g groups].
    + unfold pysum. simpl. lra.
    + exfalso. eapply not_elem_of_nil, Hin, elem_of_cons. by left.
  - cbv zeta. rewrite entropy_fold.
    + rewrite Counter_values, map_map.
      rewrite (pysum_Permutation _ (map (λ x, plogp (frequency x items)) groups)); [lra |].
      apply fmap_Permutation. by apply Counter_keys_Permutation.
    + lia.
    + rewrite Counter_values. apply Forall_fmap, Forall_forall. intros x Hx. simpl.
      destruct (Counter_counts items) as (_ & Hin' & _ & _).
      by apply occurrences_pos, Hin'.
Qed.

Lemma length_sum_occurrences (items groups : list A) :
  NoDup groups → (∀ x, x ∈ groups ↔ x ∈ items) →
  sum_list (map (λ x, occurrences x items) groups) = length items.
Proof.
  intros Hnd Hin. destruct (Counter_counts items) as (_ & _ & _ & Hsum).
  rewrite <- Hsum, Counter_values.
  symmetry. apply sum_list_with_Permutation_proper, fmap_Permutation.
  by apply Counter_keys_Permutation.
Qed.

Lemma calculateEntropy_uniform (items groups : list A) (k m : nat) :
  (0 < k)%nat → NoDup groups → length groups = k →
  (∀ x, x ∈ items ↔ x ∈ groups) →
  (∀ x, x ∈ groups → occurrences x items = m) →
  calculateEntropy items = log2 (INR k).
Proof.
  intros Hk Hnd Hlen Hin Hocc.
  assert (Hin' : ∀ x, x ∈ groups ↔ x ∈ items) by (intros x; by rewrite Hin).
  assert (Hm : (0 < m)%nat).
  { destruct groups as [| g groups]; [simpl in Hlen; lia |].
    rewrite <- (Hocc g) by (apply elem_of_cons; by left).
    apply occurrences_pos, Hin, elem_of_cons. by left. }
  assert (Hocc' : map (λ x, occurrences x items) groups = replicate k m).
  { rewrite <- Hlen. clear Hlen Hnd Hin Hin' Hk.
    induction groups as [| g groups IH]; [done |]. cbn [map length replicate].
    rewrite Hocc by (apply elem_of_cons; by left).
    rewrite IH; [done |]. intros x Hx. apply Hocc, elem_of_cons. by right. }
  assert (Htotal : length items = (k * m)%nat).
  { rewrite <- (length_sum_occurrences items groups) by done.
    rewrite Hocc'. apply sum_list_replicate. }
  rewrite (calculateEntropy_formula items groups) by done.
  assert (Hfreq : ∀ gs : list A,
             (∀ x, x ∈ gs → occurrences x items = m) →
             map (λ x, plogp (frequency x items)) gs
             = replicate (length gs) (plogp (/ INR k))).
  { induction gs as [| g gs IH]; intros Hgs; [done |]. cbn [map length replicate].
    rewrite IH by (intros x Hx; apply Hgs, elem_of_cons; by right).
    f_equal. f_equal. unfold frequency.
    rewrite Hgs by (apply elem_of_cons; by left).
    rewrite Htotal, mult_INR. field.
    split; apply not_0_INR; lia. }
  rewrite (Hfreq groups Hocc), Hlen, pysum_replicate. unfold plogp, log2.
  rewrite ln_Rinv by (apply lt_0_INR; lia).
  field. split.
  - apply Rgt_not_eq. rewrite <- ln_1. apply ln_increasing; lra.
  - apply not_0_INR. lia.
Qed.
End EntropyFacts.

Lemma calculateEntropy_constant {A : Type} `{EqDecision A} (x : A) (items : list A) :
  (∀ y, y ∈ items → y = x) → calculateEntropy items = 0.
Proof.
  intros Hall. destruct items as [| y items]; [done |].
  rewrite (calculateEntropy_uniform (y :: items) [x] 1 (occurrences x (y :: items))).
  - unfold log2. simpl. rewrite ln_1. lra.
  - lia.
  - apply NoDup_singleton.
  - done.
  - intros z. rewrite list_elem_of_singleton. split; [apply Hall |].
    intros ->. rewrite <- (Hall y) by (apply elem_of_cons; by left).
    apply elem_of_cons. by left.
  - intros z Hz. by apply list_elem_of_singleton in Hz as ->.
Qed.

(** C5: the entropy utility groups its items by equality and returns
    [- Σ p * log2 p] over the relative frequencies [p] of the distinct
    items; it is [0] on the empty input, [0] when all items are equal,
    and [log2 k] on [k] distinct items that occur equally often. *)
Theorem calculateEntropy_shannon {A : Type} `{EqDecision A} (items : list A) :
  (∀ groups : list A,
     NoDup groups → (∀ x, x ∈ groups ↔ x ∈ items) →
     calculateEntropy items = - pysum (map (λ x, plogp (frequency x items)) groups))
  ∧ (items = [] → calculateEntropy items = 0)
  ∧ (∀ x : A, (∀ y, y ∈ items → y = x) → calculateEntropy items = 0)
  ∧ (∀ (k m : nat) (groups : list A),
       (0 < k)%nat → NoDup groups → length groups = k →
       (∀ x, x ∈ items ↔ x ∈ groups) →
       (∀ x, x ∈ groups → occurrences x items = m) →
       calculateEntropy items = log2 (INR k)).
Proof.
  split; [apply calculateEntropy_formula |].
  split; [by intros -> |].
  split; [| intros k m groups; apply calculateEntropy_uniform].
  intros x. apply calculateEntropy_constant.
Qed.

Lemma calculateEntropy_shannon_witness :
  calculateEntropy ["KeyA"; "KeyB"; "KeyB"; "KeyA"] = log2 (INR 2)
  ∧ calculateEntropy ["KeyL"; "KeyL"] = 0.
Proof.
  split.
  - destruct (calculateEntropy_shannon ["KeyA"; "KeyB"; "KeyB"; "KeyA"])
      as (_ & _ & _ & Huniform).
    apply (Huniform 2%nat 2%nat ["KeyA"; "KeyB"]).
    + lia.
    + apply NoDup_cons. split; [| apply NoDup_singleton].
      intros Hx. apply list_elem_of_singleton in Hx. discriminate Hx.
    + reflexivity.
    + intros x. rewrite !elem_of_cons, !elem_of_nil. tauto.
    + intros x Hx. repeat (apply elem_of_cons in Hx as [-> | Hx]; [reflexivity |]).
      by apply elem_of_nil in Hx.
  - destruct (calculateEntropy_shannon ["KeyL"; "KeyL"]) as (_ & _ & Hsame & _).
    apply (Hsame "KeyL"). intros y Hy.
    repeat (apply elem_of_cons in Hy as [-> | Hy]; [reflexivity |]).
    by apply elem_of_nil in Hy.
Defined.

(** ** Monadic inversion *)

Lemma bind_Ok {A B : Type} (m : result A) (k : A → result B) (b : B) :
  m ≫= k = Ok b → ∃ a, m = Ok a ∧ k a = Ok b.
Proof. destruct m as [a | e]; [eauto | discriminate]. Qed.

(** ** Signal diversity *)

Ltac split_eq a b H :=
  destruct (decide (a = b)) as [H | H].

Lemma Counter_three_pattern {A B : Type} `{EqDecision A} `{EqDecision B}
    (p q r : A) (p' q' r' : B) :
  same_equalities p q r p' q' r' →
  (Counter [p; q; r]).*2 = (Counter [p'; q'; r']).*2.
Proof.
  intros (Hpq & Hpr & Hqr). unfold Counter. cbn [fold_left counter_add].
  split_eq q p Eqp.
  - rewrite (decide_True (P := q' = p')) by (symmetry; apply Hpq; done).
    cbn [counter_add].
    split_eq r p Erp.
    + rewrite (decide_True (P := r' = p')) by (symmetry; apply Hpr; done). reflexivity.
    + rewrite (decide_False (P := r' = p')) by (intros E; apply Erp; symmetry; apply Hpr; done).
      reflexivity.
  - rewrite (decide_False (P := q' = p')) by (intros E; apply Eqp; symmetry; apply Hpq; done).
    cbn [counter_add].
    split_eq r p Erp.
    + rewrite (decide_True (P := r' = p')) by (symmetry; apply Hpr; done). reflexivity.
    + rewrite (decide_False (P := r' = p')) by (intros E; apply Erp; symmetry; apply Hpr; done).
      split_eq r q Erq.
      * rewrite (decide_True (P := r' = q')) by (symmetry; apply Hqr; done). reflexivity.
      * rewrite (decide_False (P := r' = q')) by (intros E; apply Erq; symmetry; apply Hqr; done).
        reflexivity.
Qed.

Lemma calculateEntropy_three_pattern {A B : Type} `{EqDecision A} `{EqDecision B}
    (p q r : A) (p' q' r' : B) :
  same_equalities p q r p' q' r' →
  calculateEntropy [p; q; r] = calculateEntropy [p'; q'; r'].
Proof.
  intros Hsame. unfold calculateEntropy. cbn [length].
  rewrite !decide_False by done. cbv zeta.
  change (map snd (Counter [p; q; r])) with (Counter [p; q; r]).*2.
  change (map snd (Counter [p'; q'; r'])) with (Counter [p'; q'; r']).*2.
  by rewrite (Counter_three_pattern p q r p' q' r').
Qed.

Lemma extractTemporalFeatures_diversity (self : FeatureExtractor.t)
    (moves : list Move.t) (clicks : list Click.t) (keys : list Key.t)
    (features : gmap string R) :
  extractTemporalFeatures self moves clicks keys = Ok features →
  features !! "signalDiversityEntropy"
  = Some (if decide (length moves + length clicks + length keys > 0)%nat
          then calculateEntropy (shares (length moves) (length clicks) (length keys))
          else 0).
Proof.
  unfold extractTemporalFeatures. intros Hok.
  apply bind_Ok in Hok as (tm & _ & Hok).
  apply bind_Ok in Hok as (tc & _ & Hok).
  apply bind_Ok in Hok as (tk & _ & Hok).
  injection Hok as <-. unfold shares, flen.
  repeat case_decide; reflexivity.
Qed.

Lemma share_eq (a b t : nat) :
  (0 < t)%nat → INR a / INR t = INR b / INR t ↔ a = b.
Proof.
  intros Ht. assert (Hpos : 0 < INR t) by (apply lt_0_INR; lia). split.
  - intros Heq. apply INR_eq.
    apply (Rmult_eq_reg_r (/ INR t)); [exact Heq |].
    apply Rinv_neq_0_compat. lra.
  - by intros ->.
Qed.

Lemma diversity_equal_lengths (n : nat) : diversity n n n = 0.
Proof.
  unfold diversity. case_decide; [| done].
  apply (calculateEntropy_constant (INR n / INR (n + n + n))).
  intros y Hy. unfold shares in Hy. cbv zeta in Hy.
  repeat (apply elem_of_cons in Hy as [-> | Hy]; [done |]).
  by apply elem_of_nil in Hy.
Qed.

Lemma diversity_pattern (m c k m' c' k' : nat) :
  same_equalities m c k m' c' k' → diversity m c k = diversity m' c' k'.
Proof.
  intros (Hmc & Hmk & Hck).
  destruct (decide (m = c ∧ c = k)) as [[-> ->] | Hne].
  - assert (m' = c') as -> by (by apply Hmc).
    assert (c' = k') as -> by (by apply Hck).
    by rewrite !diversity_equal_lengths.
  - unfold diversity.
    assert (Ht : (m + c + k > 0)%nat) by lia.
    assert (Ht' : (m' + c' + k' > 0)%nat).
    { destruct (decide (m' = c')) as [E1 | N1]; [| lia].
      destruct (decide (c' = k')) as [E2 | N2]; [| lia].
      exfalso. apply Hne. split; [by apply Hmc | by apply Hck]. }
    rewrite !decide_True by done.
    apply calculateEntropy_three_pattern. unfold same_equalities.
    rewrite !share_eq by lia. done.
Qed.

Lemma extractBatchFeatures_temporal (self : FeatureExtractor.t) (batch : batchData)
    (features : gmap string R) :
  extractBatchFeatures self batch = Ok features →
  ∃ temporal : gmap string R,
    extractTemporalFeatures self (default [] (mouseMoves batch))
      (default [] (clicks batch)) (default [] (keys batch)) = Ok temporal
    ∧ ∀ name v, temporal !! name = Some v → features !! name = Some v.
Proof.
  unfold extractBatchFeatures. intros Hok.
  apply bind_Ok in Hok as (mf & _ & Hok).
  apply bind_Ok in Hok as (cf & _ & Hok).
  apply bind_Ok in Hok as (kf & _ & Hok).
  apply bind_Ok in Hok as (tf & Htf & Hok).
  injection Hok as <-. exists tf. split; [exact Htf |].
  intros name v Hv. unfold update. by apply lookup_union_Some_l.
Qed.

Lemma extractBatchFeatures_diversity (self : FeatureExtractor.t) (batch : batchData)
    (features : gmap string R) :
  extractBatchFeatures self batch = Ok features →
  features !! "signalDiversityEntropy"
  = Some (diversity (signal_lengths batch).1.1 (signal_lengths batch).1.2
                    (signal_lengths batch).2).
Proof.
  intros Hok. apply extractBatchFeatures_temporal in Hok as (tf & Htf & Hsub).
  apply Hsub. by apply extractTemporalFeatures_diversity in Htf.
Qed.

(** C10: [signalDiversityEntropy] is the entropy of the three shares
    grouped by equality.  The entropy of three values depends only on
    which of them are equal to one another; so two batches whose numbers
    of moves, clicks and keys show the same pattern of equalities get the
    same value, whatever the magnitudes; and a batch with three non-empty
    signal lists of one common length gets exactly [0]. *)
Theorem signalDiversityEntropy_depends_on_equalities :
  (∀ p q r p' q' r' : R,
     same_equalities p q r p' q' r' →
     calculateEntropy [p; q; r] = calculateEntropy [p'; q'; r'])
  ∧ (∀ (self : FeatureExtractor.t) (batch batch' : batchData)
     (features features' : gmap string R),
     extractBatchFeatures self batch = Ok features →
     extractBatchFeatures self batch' = Ok features' →
     same_equalities (signal_lengths batch).1.1 (signal_lengths batch).1.2
                     (signal_lengths batch).2
                     (signal_lengths batch').1.1 (signal_lengths batch').1.2
                     (signal_lengths batch').2 →
     features !! "signalDiversityEntropy" = features' !! "signalDiversityEntropy")
  ∧ (∀ (self : FeatureExtractor.t) (batch : batchData) (features : gmap string R)
       (n : nat),
       extractBatchFeatures self batch = Ok features →
       (0 < n)%nat →
       signal_lengths batch = (n, n, n) →
       features !! "signalDiversityEntropy" = Some 0).
Proof.
  split; [intros p q r p' q' r'; apply calculateEntropy_three_pattern |].
  split.
  - intros self batch batch' features features' Hok Hok' Hsame.
    rewrite (extractBatchFeatures_diversity _ _ _ Hok).
    rewrite (extractBatchFeatures_diversity _ _ _ Hok').
    f_equal. by apply diversity_pattern.
  - intros self batch features n Hok Hn Hlen.
    rewrite (extractBatchFeatures_diversity _ _ _ Hok), Hlen. simpl.
    f_equal. apply diversity_equal_lengths.
Qed.

Lemma signalDiversityEntropy_depends_on_equalities_witness :
  let batch :=
    mkBatch (Some [Move.mk (Some 10) (Some 20) (Some 1000)])
            (Some [Click.mk (Some 1050) (Some 0%Z)])
            (Some [Key.mk (Some "KeyH") (Some 1020)]) in
  exists features : gmap string R,
    extractBatchFeatures init batch = Ok features
    /\ features !! "signalDiversityEntropy" = Some 0.
Proof.
  intros batch.
  assert (Hok : exists features, extractBatchFeatures init batch = Ok features)
    by (eexists; reflexivity).
  destruct Hok as [features Hok]. exists features. split; [exact Hok |].
  destruct signalDiversityEntropy_depends_on_equalities as (_ & _ & Hequal).
  apply (Hequal init batch features 1%nat Hok); [lia | reflexivity].
Defined.

(** ** Key sets of the feature mappings *)

(** Decides an equation between two closed sets of feature names. *)
Ltac dom_closed :=
  rewrite ?dom_union_L, ?dom_insert_L, ?dom_empty_L;
  apply (bool_decide_unpack _); vm_compute; exact I.

Lemma extractMouseFeatures_dom (self : FeatureExtractor.t) (moves : list Move.t)
    (features : gmap string R) :
  extractMouseFeatures self moves = Ok features → dom features = mouse_keys.
Proof.
  unfold extractMouseFeatures. case_decide.
  - intros [= <-]. dom_closed.
  - intros Hok.
    apply bind_Ok in Hok as ([coords timeDeltas] & _ & Hok).
    apply bind_Ok in Hok as ([pauseCount totalPauseMs] & _ & Hok).
    apply bind_Ok in Hok as (c0 & _ & Hok).
    apply bind_Ok in Hok as (cN & _ & Hok).
    injection Hok as <-. case_decide; dom_closed.
Qed.

Lemma extractClickFeatures_dom (self : FeatureExtractor.t) (clicks : list Click.t)
    (features : gmap string R) :
  extractClickFeatures self clicks = Ok features → dom features = click_keys.
Proof.
  unfold extractClickFeatures. case_decide.
  - intros [= <-]. dom_closed.
  - intros Hok. apply bind_Ok in Hok as (timing & Htiming & Hok).
    injection Hok as <-. destruct (decide (length clicks > 1)%nat).
    + apply bind_Ok in Htiming as (timestamps & _ & Htiming).
      apply bind_Ok in Htiming as (tN & _ & Htiming).
      apply bind_Ok in Htiming as (t0 & _ & Htiming).
      case_decide; injection Htiming as <-; dom_closed.
    + injection Htiming as <-. dom_closed.
Qed.

Lemma extractKeystrokeFeatures_dom (self : FeatureExtractor.t) (keys : list Key.t)
    (features : gmap string R) :
  extractKeystrokeFeatures self keys = Ok features →
  dom features = keystroke_keys (bool_decide (keys = [])).
Proof.
  unfold extractKeystrokeFeatures. case_decide as Hlen.
  - apply length_zero_iff_nil in Hlen as ->. intros [= <-]. dom_closed.
  - rewrite bool_decide_eq_false_2 by (by intros ->).
    intros Hok. apply bind_Ok in Hok as (timing & Htiming & Hok).
    apply bind_Ok in Hok as (timestamps & _ & Hok).
    assert (Hdom : dom timing = {[ "keyCount"; "keyInterKeyDelayMeanMs";
                                   "keyInterKeyDelayStd"; "keyRapidPresses" ]}).
    { destruct (decide (length keys > 1)%nat).
      - apply bind_Ok in Htiming as (delays & _ & Htiming).
        destruct (decide (length delays > 0)%nat); injection Htiming as <-; dom_closed.
      - injection Htiming as <-. dom_closed. }
    case_decide; injection Hok as <-; rewrite !dom_insert_L, Hdom;
      apply (bool_decide_unpack _); vm_compute; exact I.
Qed.

Lemma extractTemporalFeatures_dom (self : FeatureExtractor.t) (moves : list Move.t)
    (clicks : list Click.t) (keys : list Key.t) (features : gmap string R) :
  extractTemporalFeatures self moves clicks keys = Ok features →
  dom features = temporal_keys.
Proof.
  unfold extractTemporalFeatures. intros Hok.
  apply bind_Ok in Hok as (tm & _ & Hok).
  apply bind_Ok in Hok as (tc & _ & Hok).
  apply bind_Ok in Hok as (tk & _ & Hok).
  injection Hok as <-. repeat case_decide; dom_closed.
Qed.

Lemma extractBatchFeatures_dom (self : FeatureExtractor.t) (batch : batchData)
    (features : gmap string R) :
  extractBatchFeatures self batch = Ok features →
  dom features = batch_keys (bool_decide (default [] (keys batch) = [])).
Proof.
  unfold extractBatchFeatures. intros Hok.
  apply bind_Ok in Hok as (mf & Hmf & Hok).
  apply bind_Ok in Hok as (cf & Hcf & Hok).
  apply bind_Ok in Hok as (kf & Hkf & Hok).
  apply bind_Ok in Hok as (tf & Htf & Hok).
  injection Hok as <-. unfold update.
  rewrite !dom_union_L, !dom_insert_L, dom_empty_L.
  rewrite (extractMouseFeatures_dom _ _ _ Hmf), (extractClickFeatures_dom _ _ _ Hcf),
    (extractKeystrokeFeatures_dom _ _ _ Hkf), (extractTemporalFeatures_dom _ _ _ _ _ Htf).
  destruct (bool_decide _); apply (bool_decide_unpack _); vm_compute; exact I.
Qed.

(** C2 (fails on the code): a batch without keys and a batch with one
    key are both accepted, and their feature mappings have different key
    sets: the first has [keyInterKeyDelayStdMs], the second has
    [keyInterKeyDelayStd] in its place. *)
Theorem extractBatchFeatures_key_sets_differ :
  let empty := mkBatch (Some []) (Some []) (Some []) in
  let typed := mkBatch (Some []) (Some []) (Some [Key.mk (Some "KeyH") (Some 1020)]) in
  exists features features' : gmap string R,
    extractBatchFeatures init empty = Ok features
    /\ extractBatchFeatures init typed = Ok features'
    /\ ("keyInterKeyDelayStdMs" ∈ dom features)
    /\ ("keyInterKeyDelayStdMs" ∉ dom features')
    /\ dom features <> dom features'.
Proof.
  intros empty typed.
  assert (Hok : exists features, extractBatchFeatures init empty = Ok features)
    by (eexists; reflexivity).
  assert (Hok' : exists features, extractBatchFeatures init typed = Ok features)
    by (eexists; reflexivity).
  destruct Hok as [features Hok]. destruct Hok' as [features' Hok'].
  exists features, features'. split; [exact Hok |]. split; [exact Hok' |].
  rewrite (extractBatchFeatures_dom _ _ _ Hok), (extractBatchFeatures_dom _ _ _ Hok').
  assert (Hin : "keyInterKeyDelayStdMs" ∈ batch_keys true)
    by (apply (bool_decide_unpack _); vm_compute; exact I).
  assert (Hout : "keyInterKeyDelayStdMs" ∉ batch_keys false)
    by (apply (bool_decide_unpack _); vm_compute; exact I).
  split; [exact Hin |]. split; [exact Hout |].
  simpl. intros Heq. apply Hout. by rewrite <- Heq.
Qed.

(** ** Malformed events *)

Section MapM.
Context {A B : Type} (f : A → result B).

Lemma mapM_cons (a : A) (l : list A) :
  mapM f (a :: l) = b ← f a; bs ← mapM f l; Ok (b :: bs).
Proof. reflexivity. Qed.

Lemma mapM_length (l : list A) (bs : list B) :
  mapM f l = Ok bs → length bs = length l.
Proof.
  revert bs. induction l as [| a l IH]; intros bs.
  - by intros [= <-].
  - rewrite mapM_cons. intros Hok.
    apply bind_Ok in Hok as (b & _ & Hok).
    apply bind_Ok in Hok as (bs' & Hbs & Hok).
    injection Hok as <-. simpl. by rewrite (IH bs').
Qed.

Lemma mapM_ok_or_key_error (l : list A) :
  (∀ a, ok_or_key_error (f a)) → ok_or_key_error (mapM f l).
Proof.
  intros Hf. induction l as [| a l IH].
  - left. by exists [].
  - rewrite mapM_cons. destruct (Hf a) as [[b ->] | [k ->]]; [| right; by exists k].
    destruct IH as [[bs ->] | [k ->]]; [left; by exists (b :: bs) | right; by exists k].
Qed.

Lemma mapM_key_error (l : list A) :
  (∀ a, ok_or_key_error (f a)) →
  (∃ a, a ∈ l ∧ key_error (f a)) → key_error (mapM f l).
Proof.
  intros Hf (a & Hin & Ha). induction l as [| a' l IH]; [by apply elem_of_nil in Hin |].
  rewrite mapM_cons. apply elem_of_cons in Hin as [<- | Hin].
  - destruct Ha as [k ->]. by exists k.
  - destruct (Hf a') as [[b ->] | [k ->]]; [| by exists k].
    destruct (IH Hin) as [k ->]. by exists k.
Qed.

Lemma mapM_fmap {C : Type} (g : C → A) (l : list C) :
  mapM f (map g l) = mapM (λ c, f (g c)) l.
Proof.
  induction l as [| c l IH]; [done |].
  cbn [map]. rewrite !mapM_cons. by rewrite IH.
Qed.
End MapM.

Lemma getitem_ok_or_key_error {A : Type} (k : string) (field : option A) :
  ok_or_key_error (getitem k field).
Proof. destruct field as [v |]; [left; by exists v | right; by exists k]. Qed.

Lemma getitem_None_key_error {A : Type} (k : string) :
  key_error (getitem k (@None A)).
Proof. by exists k. Qed.

Lemma bind_ok_or_key_error {A B : Type} (m : result A) (k : A → result B) :
  ok_or_key_error m → (∀ a, m = Ok a → ok_or_key_error (k a)) →
  ok_or_key_error (m ≫= k).
Proof.
  intros [[a ->] | [e ->]] Hk; [by apply Hk | right; by exists e].
Qed.

Lemma bind_key_error_l {A B : Type} (m : result A) (k : A → result B) :
  key_error m → key_error (m ≫= k).
Proof. intros [e ->]. by exists e. Qed.

Lemma bind_key_error_r {A B : Type} (m : result A) (k : A → result B) :
  ok_or_key_error m → (∀ a, m = Ok a → key_error (k a)) → key_error (m ≫= k).
Proof.
  intros [[a ->] | [e ->]] Hk; [by apply Hk | by exists e].
Qed.

Lemma diffs_length (ts : list R) : length (diffs ts) = (length ts - 1)%nat.
Proof.
  induction ts as [| a [| b ts] IH]; [done | done |].
  change (diffs (a :: b :: ts)) with ((b - a) :: diffs (b :: ts)).
  cbn [length] in *. rewrite IH. lia.
Qed.

Lemma extractCoordinatesAndTimes_ok_or_key_error (moves : list Move.t) :
  ok_or_key_error (extractCoordinatesAndTimes moves).
Proof.
  unfold extractCoordinatesAndTimes. case_decide; [left; by eexists |].
  apply bind_ok_or_key_error.
  - apply mapM_ok_or_key_error. intros m.
    apply bind_ok_or_key_error; [apply getitem_ok_or_key_error |]. intros x _.
    apply bind_ok_or_key_error; [apply getitem_ok_or_key_error |]. intros y _.
    left. by eexists.
  - intros coords _. apply bind_ok_or_key_error.
    + apply mapM_ok_or_key_error. intros m. apply getitem_ok_or_key_error.
    + intros timestamps _. left. by eexists.
Qed.

Lemma extractCoordinatesAndTimes_lengths (moves : list Move.t)
    (coords : list (R * R)) (timeDeltas : list R) :
  (2 <= length moves)%nat →
  extractCoordinatesAndTimes moves = Ok (coords, timeDeltas) →
  length coords = length moves ∧ length timeDeltas = (length moves - 1)%nat.
Proof.
  intros Hlen. unfold extractCoordinatesAndTimes.
  rewrite decide_False by lia. intros Hok.
  apply bind_Ok in Hok as (cs & Hcs & Hok).
  apply bind_Ok in Hok as (timestamps & Hts & Hok).
  injection Hok as <- <-. apply mapM_length in Hcs, Hts.
  by rewrite diffs_length, Hcs, Hts.
Qed.

Lemma detectPauses_returns (self : FeatureExtractor.t) (coords : list (R * R))
    (timeDeltas : list R) :
  (2 <= length coords)%nat → (1 <= length timeDeltas)%nat →
  ∃ v, detectPauses self coords timeDeltas = Some v.
Proof.
  intros Hc Ht. rewrite detectPauses_first_segment.
  destruct coords as [| p [| q coords]]; [simpl in Hc; lia | simpl in Hc; lia |].
  destruct timeDeltas as [| dt timeDeltas]; [simpl in Ht; lia |].
  cbn [segments map zip zip_with fst snd]. unfold detectPauses_body. by eexists.
Qed.

(** With at least two well-formed moves the mouse extractor succeeds, and
    its path-efficiency feature is the path length over the straight-line
    distance floored at one pixel. *)
Lemma extractMouseFeatures_path (self : FeatureExtractor.t) (moves : list Move.t)
    (coords : list (R * R)) (timeDeltas : list R) :
  (2 <= length moves)%nat →
  extractCoordinatesAndTimes moves = Ok (coords, timeDeltas) →
  ∃ (features : gmap string R) (c0 cN : R * R),
    head coords = Some c0 ∧ last coords = Some cN
    ∧ extractMouseFeatures self moves = Ok features
    ∧ features !! "mousePathEfficiency"
      = Some (pysum (map (λ s, distance s.1 s.2) (segments coords))
              / Rmax (distance c0 cN) 1).
Proof.
  intros Hlen Hcoords.
  destruct (extractCoordinatesAndTimes_lengths _ _ _ Hlen Hcoords) as [Hc Ht].
  destruct (detectPauses_returns self coords timeDeltas) as [[pc tp] Hp]; [lia | lia |].
  destruct coords as [| c0 coords']; [simpl in Hc; lia |].
  destruct (last (c0 :: coords')) as [cN |] eqn:HcN;
    [| apply last_None in HcN; discriminate].
  unfold extractMouseFeatures. rewrite decide_False by lia.
  rewrite Hcoords. cbn [mbind result_bind]. rewrite Hp. cbn [unpack first_item].
  unfold last_item. rewrite HcN.
  eexists _, c0, cN. split; [done |]. split; [done |]. split; [reflexivity |].
  case_decide; reflexivity.
Qed.

Lemma extractMouseFeatures_ok_or_key_error (self : FeatureExtractor.t)
    (moves : list Move.t) :
  ok_or_key_error (extractMouseFeatures self moves).
Proof.
  destruct (decide (length moves < 2)%nat) as [Hlt | Hge].
  - unfold extractMouseFeatures. rewrite decide_True by done. left. by eexists.
  - destruct (extractCoordinatesAndTimes_ok_or_key_error moves)
      as [[[coords tds] Hok] | [k Herr]].
    + destruct (extractMouseFeatures_path self moves coords tds) as (f & _ & _ & _ & _ & Hf & _);
        [lia | done |]. left. by exists f.
    + right. exists k. unfold extractMouseFeatures. rewrite decide_False by done.
      by rewrite Herr.
Qed.

Lemma first_item_ok {A : Type} (xs : list A) :
  (1 <= length xs)%nat → ∃ a, first_item xs = Ok a.
Proof. destruct xs as [| a xs]; [simpl; lia | by exists a]. Qed.

Lemma last_item_ok {A : Type} (xs : list A) :
  (1 <= length xs)%nat → ∃ a, last_item xs = Ok a.
Proof.
  intros Hlen. unfold last_item. destruct (last xs) as [a |] eqn:E; [by exists a |].
  apply last_None in E as ->. simpl in Hlen. lia.
Qed.

Lemma extractClickFeatures_ok_or_key_error (self : FeatureExtractor.t)
    (clicks : list Click.t) :
  ok_or_key_error (extractClickFeatures self clicks).
Proof.
  unfold extractClickFeatures. case_decide; [left; by eexists |].
  apply bind_ok_or_key_error; [| intros timing _; left; by eexists].
  destruct (decide (length clicks > 1)%nat) as [Hlen | _]; [| left; by eexists].
  apply bind_ok_or_key_error.
  - apply mapM_ok_or_key_error. intros c. apply getitem_ok_or_key_error.
  - intros timestamps Hts. apply mapM_length in Hts.
    destruct (last_item_ok timestamps) as [tN ->]; [lia |].
    destruct (first_item_ok timestamps) as [t0 ->]; [lia |].
    cbn [mbind result_bind]. case_decide; left; by eexists.
Qed.

Lemma interKeyDelays_ok_or_key_error (keys : list Key.t) :
  ok_or_key_error (interKeyDelays keys).
Proof.
  unfold interKeyDelays. case_decide; [left; by eexists |].
  apply bind_ok_or_key_error.
  - apply mapM_ok_or_key_error. intros k. apply getitem_ok_or_key_error.
  - intros timestamps _. left. by eexists.
Qed.

Lemma extractKeystrokeFeatures_ok_or_key_error (self : FeatureExtractor.t)
    (keys : list Key.t) :
  ok_or_key_error (extractKeystrokeFeatures self keys).
Proof.
  unfold extractKeystrokeFeatures. case_decide; [left; by eexists |].
  apply bind_ok_or_key_error.
  - destruct (decide (length keys > 1)%nat) as [Hlen | _]; [| left; by eexists].
    apply bind_ok_or_key_error; [apply interKeyDelays_ok_or_key_error |].
    intros delays _. destruct (decide (length delays > 0)%nat); left; by eexists.
  - intros timing _. apply bind_ok_or_key_error.
    + apply mapM_ok_or_key_error. intros k. apply getitem_ok_or_key_error.
    + intros timestamps _. case_decide; left; by eexists.
Qed.

Lemma extractTemporalFeatures_ok_or_key_error (self : FeatureExtractor.t)
    (moves : list Move.t) (clicks : list Click.t) (keys : list Key.t) :
  ok_or_key_error (extractTemporalFeatures self moves clicks keys).
Proof.
  unfold extractTemporalFeatures.
  apply bind_ok_or_key_error;
    [apply mapM_ok_or_key_error; intros m; apply getitem_ok_or_key_error |].
  intros tm _. apply bind_ok_or_key_error;
    [apply mapM_ok_or_key_error; intros c; apply getitem_ok_or_key_error |].
  intros tc _. apply bind_ok_or_key_error;
    [apply mapM_ok_or_key_error; intros k; apply getitem_ok_or_key_error |].
  intros tk _. left. by eexists.
Qed.

Lemma extractTemporalFeatures_missing_timestamp (self : FeatureExtractor.t)
    (moves : list Move.t) (clicks : list Click.t) (keys : list Key.t) :
  missing_timestamp moves clicks keys →
  key_error (extractTemporalFeatures self moves clicks keys).
Proof.
  intros Hmiss. unfold extractTemporalFeatures.
  destruct Hmiss as [(m & Hin & Hm) | Hmiss].
  { apply bind_key_error_l, mapM_key_error;
      [intros a; apply getitem_ok_or_key_error |].
    exists m. split; [done |]. rewrite Hm. apply getitem_None_key_error. }
  apply bind_key_error_r;
    [apply mapM_ok_or_key_error; intros a; apply getitem_ok_or_key_error |].
  intros tm _. destruct Hmiss as [(c & Hin & Hc) | (k & Hin & Hk)].
  { apply bind_key_error_l, mapM_key_error;
      [intros a; apply getitem_ok_or_key_error |].
    exists c. split; [done |]. rewrite Hc. apply getitem_None_key_error. }
  apply bind_key_error_r;
    [apply mapM_ok_or_key_error; intros a; apply getitem_ok_or_key_error |].
  intros tc _.
  apply bind_key_error_l, mapM_key_error;
    [intros a; apply getitem_ok_or_key_error |].
  exists k. split; [done |]. rewrite Hk. apply getitem_None_key_error.
Qed.

Lemma extractMouseFeatures_missing_coordinate (self : FeatureExtractor.t)
    (moves : list Move.t) :
  (2 <= length moves)%nat →
  (∃ m, m ∈ moves ∧ (Move.x m = None ∨ Move.y m = None)) →
  key_error (extractMouseFeatures self moves).
Proof.
  intros Hlen (m & Hin & Hm). unfold extractMouseFeatures, extractCoordinatesAndTimes.
  rewrite !decide_False by lia.
  apply bind_key_error_l, bind_key_error_l, mapM_key_error.
  - intros a.
    apply bind_ok_or_key_error; [apply getitem_ok_or_key_error |]. intros x _.
    apply bind_ok_or_key_error; [apply getitem_ok_or_key_error |]. intros y _.
    left. by eexists.
  - exists m. split; [done |]. destruct (Move.x m) as [x |].
    + destruct Hm as [Hm | Hm]; [discriminate |]. rewrite Hm. by exists "y".
    + by exists "x".
Qed.

Lemma extractBatchFeatures_ok_or_key_error (self : FeatureExtractor.t)
    (batch : batchData) :
  ok_or_key_error (extractBatchFeatures self batch).
Proof.
  unfold extractBatchFeatures.
  apply bind_ok_or_key_error; [apply extractMouseFeatures_ok_or_key_error |].
  intros mf _.
  apply bind_ok_or_key_error; [apply extractClickFeatures_ok_or_key_error |].
  intros cf _.
  apply bind_ok_or_key_error; [apply extractKeystrokeFeatures_ok_or_key_error |].
  intros kf _.
  apply bind_ok_or_key_error; [apply extractTemporalFeatures_ok_or_key_error |].
  intros tf _. left. by eexists.
Qed.

Lemma extractBatchFeatures_missing_timestamp (self : FeatureExtractor.t)
    (batch : batchData) :
  missing_timestamp (default [] (mouseMoves batch)) (default [] (clicks batch))
                    (default [] (keys batch)) →
  key_error (extractBatchFeatures self batch).
Proof.
  intros Hmiss. unfold extractBatchFeatures.
  apply bind_key_error_r; [apply extractMouseFeatures_ok_or_key_error |].
  intros mf _.
  apply bind_key_error_r; [apply extractClickFeatures_ok_or_key_error |].
  intros cf _.
  apply bind_key_error_r; [apply extractKeystrokeFeatures_ok_or_key_error |].
  intros kf _.
  by apply bind_key_error_l, extractTemporalFeatures_missing_timestamp.
Qed.

Lemma extractBatchFeatures_missing_coordinate (self : FeatureExtractor.t)
    (batch : batchData) :
  (2 <= length (default [] (mouseMoves batch)))%nat →
  (∃ m, m ∈ default [] (mouseMoves batch) ∧ (Move.x m = None ∨ Move.y m = None)) →
  key_error (extractBatchFeatures self batch).
Proof.
  intros Hlen Hmiss. unfold extractBatchFeatures.
  by apply bind_key_error_l, extractMouseFeatures_missing_coordinate.
Qed.

Lemma extractClickFeatures_defaults (self : FeatureExtractor.t) (clicks : list Click.t) :
  extractClickFeatures self (map fill_click clicks) = extractClickFeatures self clicks.
Proof.
  unfold extractClickFeatures, flen. rewrite !length_map, mapM_fmap, map_map.
  cbn [fill_click Click.ts Click.button default].
  reflexivity.
Qed.

Lemma extractKeystrokeFeatures_defaults (self : FeatureExtractor.t) (keys : list Key.t) :
  extractKeystrokeFeatures self (map fill_key keys) = extractKeystrokeFeatures self keys.
Proof.
  unfold extractKeystrokeFeatures, interKeyDelays, flen.
  rewrite !length_map, !mapM_fmap, map_map.
  cbn [fill_key Key.ts Key.code default].
  reflexivity.
Qed.

Lemma extractTemporalFeatures_defaults (self : FeatureExtractor.t)
    (moves : list Move.t) (clicks : list Click.t) (keys : list Key.t) :
  extractTemporalFeatures self moves (map fill_click clicks) (map fill_key keys)
  = extractTemporalFeatures self moves clicks keys.
Proof.
  unfold extractTemporalFeatures, flen. rewrite !length_map, !mapM_fmap.
  reflexivity.
Qed.

Lemma extractBatchFeatures_defaults (self : FeatureExtractor.t) (batch : batchData) :
  extractBatchFeatures self (with_defaults batch) = extractBatchFeatures self batch.
Proof.
  unfold extractBatchFeatures, with_defaults.
  cbn [mouseMoves clicks keys].
  assert (Hc : default [] (map fill_click <$> clicks batch)
               = map fill_click (default [] (clicks batch)))
    by (by destruct (clicks batch)).
  assert (Hk : default [] (map fill_key <$> keys batch)
               = map fill_key (default [] (keys batch)))
    by (by destruct (keys batch)).
  rewrite Hc, Hk, !length_map.
  rewrite extractClickFeatures_defaults, extractKeystrokeFeatures_defaults,
    extractTemporalFeatures_defaults.
  reflexivity.
Qed.

(** C8 as stated fails: a click without a button code is an event with a
    missing field, yet extraction succeeds and counts it as a
    primary-button click. *)
Lemma missing_button_is_defaulted :
  let batch := mkBatch (Some []) (Some [Click.mk (Some 1050) None]) (Some []) in
  malformed batch
  ∧ ∃ features : gmap string R,
      extractBatchFeatures init batch = Ok features
      ∧ features !! "clickLeftRatio" = Some 1.
Proof.
  intros batch. split.
  - right. left. exists (Click.mk (Some 1050) None). split; [| by right].
    apply elem_of_cons. by left.
  - eexists. split; [reflexivity |].
    replace 1 with (INR 1 / INR 1) by (simpl; lra). reflexivity.
Qed.

(** C8, amended: an event without a timestamp, or a move without a
    coordinate in a batch of at least two moves, makes extraction raise
    [KeyError]; a missing button code or key code is not an error: the
    result is that of the batch with the defaults [0] and ["Unknown"]
    written in. *)
Theorem malformed_events_surface_or_default (self : FeatureExtractor.t)
    (batch : batchData) :
  (missing_timestamp (default [] (mouseMoves batch)) (default [] (clicks batch))
                     (default [] (keys batch)) →
   key_error (extractBatchFeatures self batch))
  ∧ ((2 <= length (default [] (mouseMoves batch)))%nat →
     (∃ m, m ∈ default [] (mouseMoves batch) ∧ (Move.x m = None ∨ Move.y m = None)) →
     key_error (extractBatchFeatures self batch))
  ∧ extractBatchFeatures self batch = extractBatchFeatures self (with_defaults batch).
Proof.
  split; [apply extractBatchFeatures_missing_timestamp |].
  split; [apply extractBatchFeatures_missing_coordinate |].
  symmetry. apply extractBatchFeatures_defaults.
Qed.

Lemma malformed_events_surface_or_default_witness :
  key_error (extractBatchFeatures init
               (mkBatch (Some [Move.mk (Some 1) (Some 2) None]) None None))
  ∧ key_error (extractBatchFeatures init
                 (mkBatch (Some [Move.mk (Some 1) None (Some 1000);
                                 Move.mk (Some 2) (Some 2) (Some 1100)]) None None)).
Proof.
  split.
  - apply (proj1 (malformed_events_surface_or_default init
                    (mkBatch (Some [Move.mk (Some 1) (Some 2) None]) None None))).
    left. exists (Move.mk (Some 1) (Some 2) None). split; [| reflexivity].
    apply elem_of_cons. by left.
  - apply (proj1 (proj2 (malformed_events_surface_or_default init
             (mkBatch (Some [Move.mk (Some 1) None (Some 1000);
                             Move.mk (Some 2) (Some 2) (Some 1100)]) None None)))).
    + simpl. lia.
    + exists (Move.mk (Some 1) None (Some 1000)). split; [| by right].
      apply elem_of_cons. by left.
Defined.

(** ** Path efficiency *)

Lemma distance_dist_euc (p q : R * R) :
  distance p q = dist_euc q.1 q.2 p.1 p.2.
Proof.
  destruct p as [x1 y1], q as [x2 y2]. unfold distance, dist_euc. simpl.
  f_equal. unfold Rsqr. ring.
Qed.

Lemma distance_triangle (p q r : R * R) :
  distance p r <= distance p q + distance q r.
Proof.
  rewrite !distance_dist_euc.
  rewrite (Rplus_comm (dist_euc _ _ _ _)). apply triangle.
Qed.

Lemma pathLength_cons (p q : R * R) (coords : list (R * R)) :
  pathLength (p :: q :: coords) = distance p q + pathLength (q :: coords).
Proof. unfold pathLength. cbn [segments map]. by rewrite pysum_cons. Qed.

Lemma pathLength_single (p : R * R) : pathLength [p] = 0.
Proof. reflexivity. Qed.

(** In exact arithmetic the path is at least as long as the straight
    line between its ends, and as long on a straight path.  Neither
    survives rounding: see [Binary64.mousePathEfficiency]. *)
Lemma pathLength_ge_straight (coords : list (R * R)) (c0 cN : R * R) :
  head coords = Some c0 → last coords = Some cN →
  distance c0 cN <= pathLength coords.
Proof.
  revert c0. induction coords as [| p coords IH]; intros c0 Hhd Hlast; [done |].
  injection Hhd as Hp. subst p. destruct coords as [| q coords].
  - injection Hlast as Hc. subst cN. rewrite distance_same, pathLength_single. lra.
  - rewrite pathLength_cons.
    specialize (IH q eq_refl Hlast).
    pose proof (distance_triangle c0 q cN). lra.
Qed.

Lemma distance_along (px py dx dy step : R) :
  0 <= step →
  distance (px, py) (px + step * dx, py + step * dy) = step * sqrt (dx ^ 2 + dy ^ 2).
Proof.
  intros Hs. unfold distance.
  replace ((px + step * dx - px) ^ 2 + (py + step * dy - py) ^ 2)
    with (Rsqr step * (dx ^ 2 + dy ^ 2)) by (unfold Rsqr; ring).
  rewrite sqrt_mult_alt by apply Rle_0_sqr.
  by rewrite sqrt_Rsqr.
Qed.

Lemma straight_path_length (dx dy : R) (coords : list (R * R)) (c0 cN : R * R) :
  Forall (λ s : (R * R) * (R * R),
            ∃ step : R, 0 <= step
              ∧ s.2.1 = s.1.1 + step * dx ∧ s.2.2 = s.1.2 + step * dy)
         (segments coords) →
  head coords = Some c0 → last coords = Some cN →
  ∃ total : R, 0 <= total
    ∧ cN = (c0.1 + total * dx, c0.2 + total * dy)
    ∧ pathLength coords = total * sqrt (dx ^ 2 + dy ^ 2).
Proof.
  revert c0. induction coords as [| p coords IH]; intros c0 Hall Hhd Hlast; [done |].
  injection Hhd as Hp. subst p. destruct coords as [| q coords].
  - injection Hlast as Hc. subst cN. exists 0. split; [lra |]. split.
    + destruct c0 as [x y]. simpl. f_equal; ring.
    + rewrite pathLength_single. ring.
  - change (segments (c0 :: q :: coords)) with ((c0, q) :: segments (q :: coords)) in Hall.
    apply Forall_cons in Hall as [(step & Hstep & Hx & Hy) Hall]. simpl in Hx, Hy.
    destruct (IH q Hall eq_refl Hlast) as (total & Htotal & -> & Hlen).
    exists (step + total). split; [lra |]. split.
    + rewrite Hx, Hy. f_equal; ring.
    + rewrite pathLength_cons, Hlen.
      destruct c0 as [x y], q as [qx qy]. simpl in Hx, Hy. subst qx qy.
      rewrite distance_along by done. ring.
Qed.

Lemma straight_path_exact (coords : list (R * R)) (c0 cN : R * R) :
  straight_path coords → head coords = Some c0 → last coords = Some cN →
  pathLength coords = distance c0 cN.
Proof.
  intros (dx & dy & Hall) Hhd Hlast.
  destruct (straight_path_length dx dy coords c0 cN Hall Hhd Hlast)
    as (total & Htotal & -> & ->).
  destruct c0 as [x y]. cbn [fst snd]. by rewrite distance_along.
Qed.

(** C4 as stated fails: for two moves at the same point the path
    efficiency is [0], below [1], although the path is collinear. *)
Lemma stationary_path_efficiency_zero :
  let moves := [Move.mk (Some 100) (Some 200) (Some 1000);
                Move.mk (Some 100) (Some 200) (Some 1100)] in
  (2 <= length moves)%nat
  ∧ ∃ features : gmap string R,
      extractMouseFeatures init moves = Ok features
      ∧ features !! "mousePathEfficiency" = Some 0
      ∧ ¬ 1 <= 0.
Proof.
  intros moves. split; [simpl; lia |].
  destruct (extractMouseFeatures_path init moves [(100, 200); (100, 200)] [1100 - 1000])
    as (features & c0 & cN & Hhd & Hlast & Hok & Hval); [simpl; lia | reflexivity |].
  injection Hhd as <-. injection Hlast as <-.
  exists features. split; [exact Hok |]. split; [| lra].
  rewrite Hval. f_equal. cbn [segments map fst snd].
  rewrite distance_same, pysum_cons. unfold pysum. cbn [fold_left].
  rewrite Rmax_right by lra. lra.
Qed.

(** ** Dataset builders *)

(** C9: when no batch was loaded, the batch-level and the session-level
    builders both return the empty frame and raise nothing. *)
Theorem builders_empty_input (self : DatasetBuilder.t) :
  DatasetBuilder.loadSignals self = [] →
  DatasetBuilder.buildBatchLevelDataset self = Ok []
  ∧ DatasetBuilder.buildSessionLevelDataset self = Ok [].
Proof.
  intros Hempty.
  assert (Hbatch : DatasetBuilder.buildBatchLevelDataset self = Ok []).
  { unfold DatasetBuilder.buildBatchLevelDataset. by rewrite Hempty. }
  split; [exact Hbatch |].
  unfold DatasetBuilder.buildSessionLevelDataset. by rewrite Hbatch.
Qed.

Lemma builders_empty_input_witness :
  DatasetBuilder.buildBatchLevelDataset (DatasetBuilder.mk [] init) = Ok []
  ∧ DatasetBuilder.buildSessionLevelDataset (DatasetBuilder.mk [] init) = Ok [].
Proof. apply (builders_empty_input (DatasetBuilder.mk [] init)). reflexivity. Defined.

(** ** Session statistics *)

Lemma pysum_single (v : R) : pysum [v] = v.
Proof. unfold pysum. simpl. lra. Qed.

(** The statistics of a column with a single value: five of them are
    that value, the standard deviation is NaN. *)
Lemma pd_single_value (v : R) :
  pd.mean [v] = pd.Finite v
  ∧ pd.min [v] = pd.Finite v
  ∧ pd.max [v] = pd.Finite v
  ∧ pd.quantile [v] 50 100 = pd.Finite v
  ∧ pd.quantile [v] 95 100 = pd.Finite v
  ∧ pd.std [v] = pd.NaN.
Proof.
  assert (Hq : ∀ q : nat, pd.quantile [v] q 100 = pd.Finite v).
  { intros q. unfold pd.quantile. cbn [length Nat.sub pd.sort foldr pd.insert_sorted].
    rewrite Nat.mul_0_r. change (0 / 100)%nat with 0%nat.
    change (0 mod 100)%nat with 0%nat. cbn [Nat.add Nat.min nth].
    f_equal. change (INR 0) with 0. lra. }
  split; [| split; [| split; [| split; [| split]]]];
    [| reflexivity | reflexivity | apply Hq | apply Hq | reflexivity].
  unfold pd.mean, flen. rewrite pysum_single. f_equal. simpl. field.
Qed.

(** On two values the standard deviation divides by [n - 1 = 1]. *)
Lemma pd_std_pair (a b : R) :
  pd.std [a; b]
  = pd.Finite (sqrt ((a - (a + b) / 2) * (a - (a + b) / 2)
                     + (b - (a + b) / 2) * (b - (a + b) / 2))).
Proof.
  unfold pd.std. cbn [length]. rewrite decide_False by lia.
  cbv zeta. f_equal. f_equal. unfold flen. cbn [map length Nat.sub INR].
  rewrite !pysum_cons. unfold pysum. cbn [fold_left]. field.
Qed.

Lemma np_std_pair (a b : R) :
  np_std [a; b]
  = sqrt (((a - (a + b) / 2) * (a - (a + b) / 2)
           + (b - (a + b) / 2) * (b - (a + b) / 2)) / 2).
Proof.
  unfold np_std, np_mean, flen. cbn [map length INR].
  rewrite !pysum_cons. unfold pysum. cbn [fold_left]. f_equal. field.
Qed.

(** C3 (fails on the code): the aggregator calls [Series.std] with its
    default [ddof=1].  A session with a single batch gets NaN as the
    standard deviation of every feature, and a session with two batches
    gets the sample deviation ([sqrt (1/2)] for the values 0 and 1 of
    [has_keys]), not the population deviation ([sqrt (1/4)]). *)
Theorem session_std_is_sample_deviation :
  let empty := DatasetBuilder.mkSignal "sess-2" "2025-01-01T00:00:05Z" 0 [] [] [] in
  let typed := DatasetBuilder.mkSignal "sess-2" "2025-01-01T00:00:06Z" 1000 [] []
                 [Key.mk (Some "KeyH") (Some 1020)] in
  (∃ row : DatasetBuilder.sessionRow,
     DatasetBuilder.buildSessionLevelDataset (DatasetBuilder.mk [empty] init) = Ok [row]
     ∧ DatasetBuilder.batchCount row = 1%nat
     ∧ DatasetBuilder.stats row !! "batch_event_count_std" = Some pd.NaN)
  ∧ (∃ row : DatasetBuilder.sessionRow,
       DatasetBuilder.buildSessionLevelDataset (DatasetBuilder.mk [empty; typed] init)
       = Ok [row]
       ∧ DatasetBuilder.batchCount row = 2%nat
       ∧ DatasetBuilder.stats row !! "has_keys_std" = Some (pd.Finite (sqrt (1 / 2)))
       ∧ np_std [0; 1] = sqrt (1 / 4)
       ∧ sqrt (1 / 2) ≠ sqrt (1 / 4)).
Proof.
  intros empty typed. split.
  - eexists. split; [reflexivity |]. split; [reflexivity |].
    vm_compute. reflexivity.
  - eexists. split; [reflexivity |]. split; [reflexivity |]. split; [| split].
    + transitivity (Some (pd.std [0; 1])); [reflexivity |].
      rewrite pd_std_pair. do 3 f_equal. field.
    + rewrite np_std_pair. f_equal. field.
    + intros Heq. apply sqrt_inj in Heq; lra.
Qed.

(** * Further properties of the feature code *)

(** ** Lists of numbers *)

Lemma pysum_nil : pysum [] = 0.
Proof. reflexivity. Qed.

Lemma diffs_cons (a b : R) (ts : list R) :
  diffs (a :: b :: ts) = (b - a) :: diffs (b :: ts).
Proof. reflexivity. Qed.

(** Each difference is taken between two neighbours. *)
Lemma diffs_lookup (ts : list R) (i : nat) (a b : R) :
  ts !! i = Some a → ts !! S i = Some b → diffs ts !! i = Some (b - a).
Proof.
  revert i. induction ts as [| t ts IH]; intros i Ha Hb; [done |].
  destruct ts as [| u ts]; [done |].
  destruct i as [| i].
  - simpl in Ha, Hb. injection Ha as ->. injection Hb as ->. done.
  - change (diffs (t :: u :: ts)) with ((u - t) :: diffs (u :: ts)).
    rewrite lookup_cons. apply IH; done.
Qed.

Lemma fold_left_Rmax_ge (xs : list R) (a : R) :
  a <= fold_left Rmax xs a ∧ Forall (λ x, x <= fold_left Rmax xs a) xs.
Proof.
  revert a. induction xs as [| x xs IH]; intros a; simpl.
  - split; [lra | constructor].
  - destruct (IH (Rmax a x)) as [Hacc Hall]. split.
    + pose proof (Rmax_l a x). lra.
    + constructor; [| done]. pose proof (Rmax_r a x). lra.
Qed.

Lemma fold_left_Rmin_le (xs : list R) (a : R) :
  fold_left Rmin xs a <= a ∧ Forall (λ x, fold_left Rmin xs a <= x) xs.
Proof.
  revert a. induction xs as [| x xs IH]; intros a; simpl.
  - split; [lra | constructor].
  - destruct (IH (Rmin a x)) as [Hacc Hall]. split.
    + pose proof (Rmin_l a x). lra.
    + constructor; [| done]. pose proof (Rmin_r a x). lra.
Qed.

Lemma np_max_ge (xs : list R) : Forall (λ x, x <= np_max xs) xs.
Proof.
  destruct xs as [| a xs]; [constructor |]. unfold np_max.
  destruct (fold_left_Rmax_ge xs a). by constructor.
Qed.

Lemma np_min_le (xs : list R) : Forall (λ x, np_min xs <= x) xs.
Proof.
  destruct xs as [| a xs]; [constructor |]. unfold np_min.
  destruct (fold_left_Rmin_le xs a). by constructor.
Qed.

Lemma np_min_le_max (xs : list R) : np_min xs <= np_max xs.
Proof.
  destruct xs as [| a xs]; [simpl; lra |].
  pose proof (np_min_le (a :: xs)) as Hmin. pose proof (np_max_ge (a :: xs)) as Hmax.
  apply Forall_cons in Hmin as [Hmin _]. apply Forall_cons in Hmax as [Hmax _]. lra.
Qed.

Lemma np_max_nonneg (xs : list R) : Forall (λ x, 0 <= x) xs → 0 <= np_max xs.
Proof.
  intros Hxs. destruct xs as [| a xs]; [simpl; lra |].
  pose proof (np_max_ge (a :: xs)) as Hmax.
  apply Forall_cons in Hxs as [Ha _]. apply Forall_cons in Hmax as [Hmax _]. lra.
Qed.

Lemma pysum_le_bound (xs : list R) (M : R) :
  Forall (λ x, x <= M) xs → pysum xs <= INR (length xs) * M.
Proof.
  induction 1 as [| x xs Hx _ IH].
  - rewrite pysum_nil. simpl. lra.
  - rewrite pysum_cons. cbn [length]. rewrite S_INR. lra.
Qed.

Lemma pysum_ge_bound (xs : list R) (m : R) :
  Forall (λ x, m <= x) xs → INR (length xs) * m <= pysum xs.
Proof.
  induction 1 as [| x xs Hx _ IH].
  - rewrite pysum_nil. simpl. lra.
  - rewrite pysum_cons. cbn [length]. rewrite S_INR. lra.
Qed.

Lemma pysum_nonneg (xs : list R) : Forall (λ x, 0 <= x) xs → 0 <= pysum xs.
Proof. intros H. apply pysum_ge_bound in H. lra. Qed.

Lemma mapM_Forall2 {A B : Type} (f : A → result B) (l : list A) (bs : list B) :
  mapM f l = Ok bs → Forall2 (λ a b, f a = Ok b) l bs.
Proof.
  revert bs. induction l as [| a l IH]; intros bs.
  - intros [= <-]. constructor.
  - rewrite mapM_cons. intros Hok.
    apply bind_Ok in Hok as (b & Hb & Hok).
    apply bind_Ok in Hok as (bs' & Hbs & Hok).
    injection Hok as <-. constructor; [done | by apply IH].
Qed.

Lemma mapM_Ok_intro {A B : Type} (f : A → result B) (l : list A) :
  Forall (λ a, ∃ b, f a = Ok b) l → ∃ bs, mapM f l = Ok bs.
Proof.
  induction 1 as [| a l [b Hb] _ [bs IH]]; [by exists [] |].
  exists (b :: bs). by rewrite mapM_cons, Hb, IH.
Qed.

Lemma getitem_Ok {A : Type} (k : string) (field : option A) (v : A) :
  getitem k field = Ok v ↔ field = Some v.
Proof. destruct field; simpl; split; congruence. Qed.

(** ** Geometry, continued *)


Lemma atan_nonpos (x : R) : x <= 0 → atan x <= 0.
Proof.
  intros [Hlt | ->]; [| rewrite atan_0; lra].
  left. rewrite <- atan_0. by apply atan_increasing.
Qed.

Lemma atan_pos (x : R) : 0 < x → 0 < atan x.
Proof. intros Hx. rewrite <- atan_0. by apply atan_increasing. Qed.

Lemma atan2_range (y x : R) : - PI < atan2 y x <= PI.
Proof.
  pose proof PI_RGT_0 as Hpi. unfold atan2.
  destruct (decide (0 < x)) as [Hx | Hx].
  { pose proof (atan_bound (y / x)). lra. }
  destruct (decide (x < 0)) as [Hx' | Hx'].
  - pose proof (atan_bound (y / x)) as Hb.
    destruct (decide (0 <= y)) as [Hy | Hy].
    + assert (atan (y / x) <= 0); [| lra].
      apply atan_nonpos. unfold Rdiv.
      assert (/ x < 0) by (by apply Rinv_lt_0_compat). nra.
    + assert (0 < atan (y / x)); [| lra].
      apply atan_pos. unfold Rdiv.
      assert (/ x < 0) by (by apply Rinv_lt_0_compat). nra.
  - repeat case_decide; lra.
Qed.

(** X2: [angleBetween] always returns an angle between 0 and [PI], whatever
    the three points are, also when two of them coincide. *)
Theorem angleBetween_range (pointOne pointTwo pointThree : R * R) :
  0 <= angleBetween pointOne pointTwo pointThree <= PI.
Proof.
  unfold angleBetween. cbv zeta. split; [apply Rabs_pos |].
  match goal with |- Rabs (atan2 ?y ?x) <= _ => pose proof (atan2_range y x) end.
  apply Rabs_le. lra.
Qed.

(** X3: the angle is measured between the two vectors that leave
    [pointTwo].  On three collinear points with [pointOne] different from
    [pointTwo], a path that goes on in the same direction gives [PI] and a
    path that turns back gives 0. *)
Theorem angleBetween_collinear (pointOne pointTwo pointThree : R * R) (t : R) :
  pointOne ≠ pointTwo →
  pointThree.1 - pointTwo.1 = t * (pointTwo.1 - pointOne.1) →
  pointThree.2 - pointTwo.2 = t * (pointTwo.2 - pointOne.2) →
  (0 < t → angleBetween pointOne pointTwo pointThree = PI)
  ∧ (t < 0 → angleBetween pointOne pointTwo pointThree = 0).
Proof.
  intros Hne Hx Hy. pose proof PI_RGT_0 as Hpi.
  destruct pointOne as [x1 y1], pointTwo as [x2 y2], pointThree as [x3 y3].
  cbn [fst snd] in *. unfold angleBetween. cbn [fst snd].
  set (ux := x2 - x1) in *. set (uy := y2 - y1) in *.
  assert (Hu : 0 < ux * ux + uy * uy).
  { destruct (Req_dec ux 0) as [Hux | Hux]; [| nra].
    destruct (Req_dec uy 0) as [Huy | Huy]; [| nra].
    exfalso. apply Hne. subst ux uy. f_equal; lra. }
  replace ((x1 - x2) * (x3 - x2) + (y1 - y2) * (y3 - y2))
    with (- t * (ux * ux + uy * uy)) by (rewrite Hx, Hy; subst ux uy; ring).
  replace ((x1 - x2) * (y3 - y2) - (y1 - y2) * (x3 - x2)) with 0
    by (rewrite Hx, Hy; subst ux uy; ring).
  unfold atan2. split; intros Ht.
  - rewrite decide_False by nra. rewrite decide_True by nra.
    rewrite decide_True by lra. unfold Rdiv. rewrite Rmult_0_l, atan_0.
    rewrite Rabs_pos_eq; lra.
  - rewrite decide_True by nra. unfold Rdiv. rewrite Rmult_0_l, atan_0.
    apply Rabs_R0.
Qed.

Lemma angleBetween_collinear_witness :
  angleBetween (100, 200) (120, 210) (140, 220) = PI
  ∧ angleBetween (100, 200) (120, 210) (100, 200) = 0.
Proof.
  split.
  - apply (proj1 (angleBetween_collinear (100, 200) (120, 210) (140, 220) 1
                    ltac:(intros [= H _]; lra) ltac:(simpl; lra) ltac:(simpl; lra))).
    lra.
  - apply (proj2 (angleBetween_collinear (100, 200) (120, 210) (100, 200) (-1)
                    ltac:(intros [= H _]; lra) ltac:(simpl; lra) ltac:(simpl; lra))).
    lra.
Defined.

(** ** The sign of the entropy *)

Lemma ln_le_minus_1 (y : R) : 0 < y → ln y <= y - 1.
Proof.
  intros Hy. pose proof (exp_ineq1_le (ln y)) as H.
  rewrite exp_ln in H by done. lra.
Qed.

Lemma ln_nonpos (p : R) : 0 < p → p <= 1 → ln p <= 0.
Proof. intros Hp Hle. pose proof (ln_le_minus_1 p Hp). lra. Qed.

Lemma ln_2_pos : 0 < ln 2.
Proof. pose proof ln_lt_2. lra. Qed.

Section EntropyBounds.
Context {A : Type} `{EqDecision A}.

Lemma occurrences_le_length (x : A) (items : list A) :
  (occurrences x items <= length items)%nat.
Proof. unfold occurrences. apply length_filter. Qed.

Lemma frequency_bounds (x : A) (items : list A) :
  x ∈ items → 0 < frequency x items <= 1.
Proof.
  intros Hin. unfold frequency.
  assert (Hocc : (0 < occurrences x items)%nat) by (by apply occurrences_pos).
  pose proof (occurrences_le_length x items) as Hle.
  assert (Hn : 0 < INR (length items)) by (apply lt_0_INR; lia).
  split.
  - apply Rdiv_lt_0_compat; [apply lt_0_INR; lia | done].
  - apply (Rmult_le_reg_r (INR (length items))); [done |].
    unfold Rdiv. rewrite Rmult_assoc, Rinv_l by lra.
    rewrite Rmult_1_r, Rmult_1_l. by apply le_INR.
Qed.

Lemma calculateEntropy_nonneg (items : list A) : 0 <= calculateEntropy items.
Proof.
  rewrite (calculateEntropy_formula items (remove_dups items));
    [| apply NoDup_remove_dups | apply elem_of_remove_dups].
  assert (Hle : pysum (map (λ x, plogp (frequency x items)) (remove_dups items))
                <= INR (length (map (λ x, plogp (frequency x items))
                                    (remove_dups items))) * 0); [| lra].
  apply pysum_le_bound, Forall_fmap, Forall_forall. intros x Hx. simpl.
  rewrite elem_of_remove_dups in Hx.
  destruct (frequency_bounds x items Hx) as [Hpos Hle].
  unfold plogp, log2. pose proof (ln_nonpos _ Hpos Hle). pose proof ln_2_pos.
  assert (ln (frequency x items) / ln 2 <= 0); [| nra].
  apply (Rmult_le_reg_r (ln 2)); [done |].
  unfold Rdiv. rewrite Rmult_assoc, Rinv_l by lra. lra.
Qed.

End EntropyBounds.

Lemma pysum_nonpos_zero (xs : list R) :
  Forall (λ x, x <= 0) xs → pysum xs = 0 → Forall (λ x, x = 0) xs.
Proof.
  induction 1 as [| x xs Hx Hxs IH]; intros Hsum; [constructor |].
  rewrite pysum_cons in Hsum.
  assert (Hle : pysum xs <= INR (length xs) * 0) by (by apply pysum_le_bound).
  constructor; [lra |]. apply IH. lra.
Qed.

Lemma plogp_zero (p : R) : 0 < p → plogp p = 0 → p = 1.
Proof.
  intros Hp Hz. unfold plogp, log2 in Hz. pose proof ln_2_pos as Hln2.
  assert (Hln : ln p = 0).
  { apply Rmult_integral in Hz as [Hz | Hz]; [lra |].
    unfold Rdiv in Hz. apply Rmult_integral in Hz as [Hz | Hz]; [done |].
    pose proof (Rinv_0_lt_compat _ Hln2). lra. }
  apply ln_inv; [done | lra |]. by rewrite ln_1.
Qed.

Section EntropyZero.
Context {A : Type} `{EqDecision A}.

Lemma occurrences_all (x : A) (items : list A) :
  occurrences x items = length items → Forall (λ y, y = x) items.
Proof.
  unfold occurrences. induction items as [| y items IH]; intros Hlen; [constructor |].
  rewrite filter_cons in Hlen. pose proof (length_filter (λ y, y = x) items) as Hle.
  destruct (decide (y = x)) as [-> | Hne]; simpl in Hlen.
  - constructor; [done |]. apply IH. lia.
  - lia.
Qed.

Lemma frequency_one (x : A) (items : list A) :
  items ≠ [] → frequency x items = 1 → Forall (λ y, y = x) items.
Proof.
  intros Hne Hf. apply occurrences_all. unfold frequency in Hf.
  assert (Hn : 0 < INR (length items)).
  { apply lt_0_INR. destruct items; [done | simpl; lia]. }
  apply INR_eq. apply (Rmult_eq_reg_r (/ INR (length items))).
  - fold (INR (occurrences x items) / INR (length items)). rewrite Hf. field. lra.
  - apply Rinv_neq_0_compat. lra.
Qed.

Lemma calculateEntropy_zero_all_equal (items : list A) :
  calculateEntropy items = 0 → ∀ x y, x ∈ items → y ∈ items → x = y.
Proof.
  intros Hz x y Hx Hy.
  assert (Hne : items ≠ []) by (intros ->; by apply elem_of_nil in Hx).
  rewrite (calculateEntropy_formula items (remove_dups items)) in Hz;
    [| apply NoDup_remove_dups | apply elem_of_remove_dups].
  assert (Hall : Forall (λ v, v = 0)
                        (map (λ x, plogp (frequency x items)) (remove_dups items))).
  { apply pysum_nonpos_zero; [| lra].
    apply Forall_fmap, Forall_forall. intros z Hzin. simpl.
    rewrite elem_of_remove_dups in Hzin.
    destruct (frequency_bounds z items Hzin) as [Hpos Hle].
    unfold plogp, log2. pose proof (ln_nonpos _ Hpos Hle). pose proof ln_2_pos as Hln2.
    assert (ln (frequency z items) / ln 2 <= 0); [| nra].
    apply (Rmult_le_reg_r (ln 2)); [done |].
    unfold Rdiv. rewrite Rmult_assoc, Rinv_l by lra. lra. }
  apply Forall_fmap in Hall. rewrite Forall_forall in Hall.
  assert (Hfx : frequency x items = 1).
  { apply plogp_zero; [by apply frequency_bounds |].
    apply (Hall x). by apply elem_of_remove_dups. }
  apply frequency_one in Hfx; [| done]. rewrite Forall_forall in Hfx.
  symmetry. by apply Hfx.
Qed.
End EntropyZero.

(** X4: [calculateEntropy] is never negative, and it is zero exactly when
    all items of the list are the same (the empty list included). *)
Theorem calculateEntropy_zero_iff {A : Type} `{EqDecision A} (items : list A) :
  0 <= calculateEntropy items
  ∧ (calculateEntropy items = 0 ↔ ∀ x y, x ∈ items → y ∈ items → x = y).
Proof.
  split; [apply calculateEntropy_nonneg |]. split.
  - apply calculateEntropy_zero_all_equal.
  - intros Hall. destruct items as [| x items]; [done |].
    apply (calculateEntropy_constant x). intros y Hy.
    apply Hall; [done |]. apply elem_of_cons. by left.
Qed.

(** ** What the pause detector computes *)

Lemma detectPauses_none (self : FeatureExtractor.t) (coords : list (R * R))
    (timeDeltas : list R) :
  (length coords < 2)%nat ∨ timeDeltas = [] → detectPauses self coords timeDeltas = None.
Proof.
  intros Hshort. rewrite detectPauses_first_segment.
  destruct Hshort as [Hlen | ->].
  - destruct coords as [| p [| q coords]]; [done | done | simpl in Hlen; lia].
  - by destruct (map _ (segments coords)).
Qed.

Lemma detectPauses_value (self : FeatureExtractor.t) (p q : R * R)
    (coords : list (R * R)) (dt : R) (timeDeltas : list R) :
  detectPauses self (p :: q :: coords) (dt :: timeDeltas)
  = Some (if decide (distance p q < pauseDistThresh self
                     ∧ pysum (dt :: timeDeltas) >= pauseDurThresh self)
          then (1%nat, pysum (dt :: timeDeltas))
          else (0%nat, 0)).
Proof.
  rewrite detectPauses_first_segment.
  cbn [segments map zip zip_with fst snd]. unfold detectPauses_body.
  cbn [take]. rewrite pysum_nil.
  destruct (decide (distance p q < pauseDistThresh self)) as [Hnear | Hfar].
  - cbn [isPaused negb pauseCount totalPauseMs pauseStartMs].
    destruct (decide (pysum (dt :: timeDeltas) - 0 >= pauseDurThresh self))
      as [Hlong | Hshort].
    + rewrite decide_True by (split; [done | lra]).
      cbn [pauseCount totalPauseMs]. do 2 f_equal. lra.
    + rewrite decide_False by (intros [_ H]; lra). reflexivity.
  - cbn [isPaused]. rewrite decide_False by (by intros [H _]). reflexivity.
Qed.

(** X6: [detectPauses] returns inside the first round of its loop.  With
    fewer than two coordinates or without time deltas the loop body never
    runs and the function returns [None].  Otherwise the result is decided
    by the first segment and the sum of all time deltas: one pause of that
    total duration when the first segment is shorter than the distance
    threshold and the total reaches the duration threshold, and no pause
    otherwise. *)
Theorem detectPauses_reads_first_segment (self : FeatureExtractor.t)
    (coords : list (R * R)) (timeDeltas : list R) :
  ((length coords < 2)%nat ∨ timeDeltas = [] →
   detectPauses self coords timeDeltas = None)
  ∧ (∀ p q rest, coords = p :: q :: rest → timeDeltas ≠ [] →
     detectPauses self coords timeDeltas
     = Some (if decide (distance p q < pauseDistThresh self
                        ∧ pysum timeDeltas >= pauseDurThresh self)
             then (1%nat, pysum timeDeltas)
             else (0%nat, 0))).
Proof.
  split; [apply detectPauses_none |].
  intros p q rest -> Hne. destruct timeDeltas as [| dt timeDeltas]; [done |].
  apply detectPauses_value.
Qed.

Lemma detectPauses_reads_first_segment_witness :
  detectPauses init [(0, 0); (1, 0); (500, 0)] [400; 700] = Some (1%nat, pysum [400; 700])
  ∧ detectPauses init [(0, 0)] [400; 700] = None.
Proof.
  destruct (detectPauses_reads_first_segment init [(0, 0); (1, 0); (500, 0)] [400; 700])
    as [_ Hsome].
  destruct (detectPauses_reads_first_segment init [(0, 0)] [400; 700]) as [Hnone _].
  split.
  - rewrite (Hsome (0, 0) (1, 0) [(500, 0)] eq_refl) by done.
    rewrite decide_True; [done |]. split.
    + rewrite distance_horizontal. cbn [pauseDistThresh init]. rewrite Rabs_pos_eq; lra.
    + unfold pysum. cbn [fold_left pauseDurThresh init]. lra.
  - apply Hnone. left. simpl. lia.
Defined.

(** ** Timestamps and their differences *)

Lemma timestamps_diffs_lookup {A : Type} (ts_of : A → option R) (l : list A)
    (timestamps : list R) (i : nat) (a a' : A) (t t' : R) :
  Forall2 (λ a t, ts_of a = Some t) l timestamps →
  l !! i = Some a → l !! S i = Some a' → ts_of a = Some t → ts_of a' = Some t' →
  diffs timestamps !! i = Some (t' - t).
Proof.
  intros Hall Hi Hi' Ht Ht'.
  destruct (Forall2_lookup_l _ _ _ _ _ Hall Hi) as (u & Hu & Hau).
  destruct (Forall2_lookup_l _ _ _ _ _ Hall Hi') as (u' & Hu' & Hau').
  assert (u = t) as -> by congruence. assert (u' = t') as -> by congruence.
  by apply diffs_lookup.
Qed.

Lemma mapM_getitem_Forall2 {A B : Type} (k : string) (field : A → option B)
    (l : list A) (vs : list B) :
  mapM (λ a, getitem k (field a)) l = Ok vs →
  Forall2 (λ a v, field a = Some v) l vs.
Proof.
  intros Hok. apply mapM_Forall2 in Hok.
  eapply Forall2_impl; [exact Hok |]. intros a v Hv. by apply getitem_Ok in Hv.
Qed.

Lemma mapM_getitem_Ok_iff {A B : Type} (k : string) (field : A → option B)
    (l : list A) :
  (∃ vs, mapM (λ a, getitem k (field a)) l = Ok vs) ↔ Forall (λ a, is_Some (field a)) l.
Proof.
  split.
  - intros [vs Hok]. apply mapM_getitem_Forall2 in Hok.
    induction Hok as [| a v l vs Hv _ IH]; constructor; [by exists v | done].
  - intros Hall. apply mapM_Ok_intro.
    eapply Forall_impl; [exact Hall |]. intros a [v Hv]. exists v. by apply getitem_Ok.
Qed.

(** X7: what [extractCoordinatesAndTimes] returns.  With fewer than two
    moves both lists are empty.  Otherwise there is one coordinate pair per
    move, holding its [x] and [y], and one time delta fewer than there are
    moves, the delta at position [i] being the timestamp of move [i+1]
    minus the timestamp of move [i]. *)
Theorem extractCoordinatesAndTimes_shape (moves : list Move.t)
    (coords : list (R * R)) (timeDeltas : list R) :
  extractCoordinatesAndTimes moves = Ok (coords, timeDeltas) →
  ((length moves < 2)%nat → coords = [] ∧ timeDeltas = [])
  ∧ ((2 <= length moves)%nat →
     Forall2 (λ m c, Move.x m = Some c.1 ∧ Move.y m = Some c.2) moves coords
     ∧ length timeDeltas = (length moves - 1)%nat
     ∧ ∀ (i : nat) (m m' : Move.t) (t t' : R),
         moves !! i = Some m → moves !! S i = Some m' →
         Move.ts m = Some t → Move.ts m' = Some t' →
         timeDeltas !! i = Some (t' - t)).
Proof.
  intros Hok. split.
  - intros Hlen. unfold extractCoordinatesAndTimes in Hok.
    rewrite decide_True in Hok by done. by injection Hok as <- <-.
  - intros Hlen.
    destruct (extractCoordinatesAndTimes_lengths _ _ _ Hlen Hok) as [_ Htds].
    unfold extractCoordinatesAndTimes in Hok. rewrite decide_False in Hok by lia.
    apply bind_Ok in Hok as (cs & Hcs & Hok).
    apply bind_Ok in Hok as (timestamps & Hts & Hok).
    injection Hok as <- <-. split; [| split; [done |]].
    + apply mapM_Forall2 in Hcs.
      eapply Forall2_impl; [exact Hcs |]. intros m c Hc.
      apply bind_Ok in Hc as (x & Hx & Hc). apply bind_Ok in Hc as (y & Hy & Hc).
      injection Hc as <-. apply getitem_Ok in Hx, Hy. done.
    + intros i m m' t t' Hi Hi' Ht Ht'.
      apply mapM_getitem_Forall2 in Hts.
      by apply (timestamps_diffs_lookup Move.ts moves timestamps i m m').
Qed.

Lemma extractCoordinatesAndTimes_shape_witness :
  let moves := [Move.mk (Some 100) (Some 200) (Some 1000);
                Move.mk (Some 120) (Some 210) (Some 1100);
                Move.mk (Some 140) (Some 220) (Some 1300)] in
  extractCoordinatesAndTimes moves
  = Ok ([(100, 200); (120, 210); (140, 220)], [1100 - 1000; 1300 - 1100])
  ∧ [1100 - 1000; 1300 - 1100] !! 1%nat = Some (1300 - 1100).
Proof.
  intros moves. split; [reflexivity |].
  destruct (extractCoordinatesAndTimes_shape moves
              [(100, 200); (120, 210); (140, 220)] [1100 - 1000; 1300 - 1100] eq_refl)
    as [_ Hshape].
  destruct Hshape as (_ & _ & Hdelta); [simpl; lia |].
  by apply (Hdelta 1%nat (Move.mk (Some 120) (Some 210) (Some 1100))
                   (Move.mk (Some 140) (Some 220) (Some 1300))).
Defined.

Lemma extractCoordinatesAndTimes_Ok_iff (moves : list Move.t) :
  (∃ r, extractCoordinatesAndTimes moves = Ok r)
  ↔ (length moves < 2)%nat
    ∨ Forall (λ m, is_Some (Move.x m) ∧ is_Some (Move.y m) ∧ is_Some (Move.ts m))
             moves.
Proof.
  unfold extractCoordinatesAndTimes.
  destruct (decide (length moves < 2)%nat) as [Hlt | Hge].
  { split; [by left | intros _; by eexists]. }
  split.
  - intros [r Hok]. right.
    apply bind_Ok in Hok as (cs & Hcs & Hok).
    apply bind_Ok in Hok as (timestamps & Hts & _).
    apply mapM_Forall2 in Hcs. apply mapM_getitem_Forall2 in Hts.
    apply Forall_forall. intros m Hm.
    apply list_elem_of_lookup in Hm as [i Hi].
    destruct (Forall2_lookup_l _ _ _ _ _ Hcs Hi) as (c & _ & Hc).
    destruct (Forall2_lookup_l _ _ _ _ _ Hts Hi) as (t & _ & Ht).
    apply bind_Ok in Hc as (x & Hx & Hc). apply bind_Ok in Hc as (y & Hy & _).
    apply getitem_Ok in Hx, Hy. rewrite Hx, Hy, Ht. by repeat split.
  - intros [Hlt | Hall]; [done |].
    assert (Hcs : ∃ cs, mapM (λ m, x ← getitem "x" (Move.x m);
                                   y ← getitem "y" (Move.y m); Ok (x, y)) moves = Ok cs).
    { apply mapM_Ok_intro. eapply Forall_impl; [exact Hall |].
      intros m ([x ->] & [y ->] & _). by eexists. }
    assert (Hts : ∃ ts, mapM (λ m, getitem "ts" (Move.ts m)) moves = Ok ts).
    { apply mapM_getitem_Ok_iff. eapply Forall_impl; [exact Hall |]. by intros m (_ & _ & ?). }
    destruct Hcs as [cs ->], Hts as [ts ->]. by eexists.
Qed.

(** X8: [extractCoordinatesAndTimes] raises nothing but [KeyError], and it
    returns exactly when there are fewer than two moves (moves are then not
    read at all) or every move has its [x], [y] and [ts]. *)
Theorem extractCoordinatesAndTimes_succeeds_iff (moves : list Move.t) :
  ok_or_key_error (extractCoordinatesAndTimes moves)
  ∧ ((∃ r, extractCoordinatesAndTimes moves = Ok r)
     ↔ (length moves < 2)%nat
       ∨ Forall (λ m, is_Some (Move.x m) ∧ is_Some (Move.y m) ∧ is_Some (Move.ts m))
                moves).
Proof.
  split; [apply extractCoordinatesAndTimes_ok_or_key_error
         | apply extractCoordinatesAndTimes_Ok_iff].
Qed.

Lemma extractCoordinatesAndTimes_succeeds_iff_witness :
  ∃ r, extractCoordinatesAndTimes [Move.mk None None None] = Ok r.
Proof.
  apply (proj2 (extractCoordinatesAndTimes_succeeds_iff [Move.mk None None None])).
  left. simpl. lia.
Defined.

(** X9: [interKeyDelays] returns the empty list for fewer than two keys
    without reading them.  With two or more keys it returns exactly when
    every key has a [ts]; there is then one delay fewer than there are
    keys, the delay at position [i] being the timestamp of key [i+1] minus
    the timestamp of key [i]. *)
Theorem interKeyDelays_shape (keys : list Key.t) :
  ((length keys < 2)%nat → interKeyDelays keys = Ok [])
  ∧ ((2 <= length keys)%nat →
     ((∃ delays, interKeyDelays keys = Ok delays)
      ↔ Forall (λ k, is_Some (Key.ts k)) keys)
     ∧ ∀ delays, interKeyDelays keys = Ok delays →
         length delays = (length keys - 1)%nat
         ∧ ∀ (i : nat) (k k' : Key.t) (t t' : R),
             keys !! i = Some k → keys !! S i = Some k' →
             Key.ts k = Some t → Key.ts k' = Some t' →
             delays !! i = Some (t' - t)).
Proof.
  unfold interKeyDelays. split.
  - intros Hlt. by rewrite decide_True.
  - intros Hge. rewrite decide_False by lia. split.
    + rewrite <- (mapM_getitem_Ok_iff "ts" Key.ts keys). split.
      * intros [delays Hok]. apply bind_Ok in Hok as (ts & Hts & _). by exists ts.
      * intros [ts ->]. by eexists.
    + intros delays Hok. apply bind_Ok in Hok as (ts & Hts & Hok).
      injection Hok as <-. split.
      * rewrite diffs_length. by rewrite (mapM_length _ _ _ Hts).
      * intros i k k' t t' Hi Hi' Ht Ht'. apply mapM_getitem_Forall2 in Hts.
        by apply (timestamps_diffs_lookup Key.ts keys ts i k k').
Qed.

Lemma interKeyDelays_shape_witness :
  interKeyDelays [Key.mk (Some "KeyH") None] = Ok []
  ∧ ∃ delays, interKeyDelays [Key.mk (Some "KeyH") (Some 1020);
                              Key.mk (Some "KeyE") (Some 1080)] = Ok delays.
Proof.
  split.
  - apply (proj1 (interKeyDelays_shape [Key.mk (Some "KeyH") None])). simpl. lia.
  - destruct (interKeyDelays_shape [Key.mk (Some "KeyH") (Some 1020);
                                    Key.mk (Some "KeyE") (Some 1080)]) as [_ Hge].
    destruct Hge as [Hiff _]; [simpl; lia |]. apply Hiff.
    repeat constructor; by eexists.
Defined.

(** ** Click features *)

Lemma ratio_bounds (a n : nat) : (a <= n)%nat → 0 <= INR a / INR n <= 1.
Proof.
  intros Hle. destruct n as [| n].
  - assert (a = 0%nat) as -> by lia. simpl. unfold Rdiv. rewrite Rmult_0_l. lra.
  - assert (Hn : 0 < INR (S n)) by (apply lt_0_INR; lia).
    pose proof (pos_INR a) as Ha. apply le_INR in Hle. split.
    + apply Rmult_le_pos; [done |]. left. by apply Rinv_0_lt_compat.
    + apply (Rmult_le_reg_r (INR (S n))); [done |].
      unfold Rdiv. rewrite Rmult_assoc, Rinv_l by lra. lra.
Qed.

(** X10: ranges of the click features.  [clickCount] is the number of
    clicks, [clickLeftRatio] and [clickClusteringRatio] lie between 0 and
    1, [clickRatePerSec] is not negative, and the minimum click interval
    is at most the maximum one. *)
Theorem extractClickFeatures_ranges (self : FeatureExtractor.t) (clicks : list Click.t)
    (features : gmap string R) :
  extractClickFeatures self clicks = Ok features →
  features !! "clickCount" = Some (INR (length clicks))
  ∧ (∃ r, features !! "clickLeftRatio" = Some r ∧ 0 <= r <= 1)
  ∧ (∃ r, features !! "clickClusteringRatio" = Some r ∧ 0 <= r <= 1)
  ∧ (∃ r, features !! "clickRatePerSec" = Some r ∧ 0 <= r)
  ∧ (∃ lo hi,
       features !! "clickIntervalMinMs" = Some lo
       ∧ features !! "clickIntervalMaxMs" = Some hi
       ∧ lo <= hi).
Proof.
  unfold extractClickFeatures. destruct (decide (length clicks = 0)%nat) as [Hz | Hnz].
  { intros [= <-]. rewrite Hz.
    split; [reflexivity |].
    split; [exists 0; split; [reflexivity | lra] |].
    split; [exists 0; split; [reflexivity | lra] |].
    split; [exists 0; split; [reflexivity | lra] |].
    exists 0, 0. repeat split; try reflexivity; lra. }
  intros Hok. apply bind_Ok in Hok as (timing & Htiming & Hok). injection Hok as <-.
  assert (Hleft : 0 <= INR (length (filter (λ b : Z, b = 0%Z)
                               (map (λ c, default 0%Z (Click.button c)) clicks)))
                       / flen clicks <= 1).
  { apply ratio_bounds. etrans; [apply length_filter |]. by rewrite length_map. }
  destruct (decide (length clicks > 1)%nat) as [Hmany | Hone].
  - apply bind_Ok in Htiming as (timestamps & Hts & Htiming).
    apply bind_Ok in Htiming as (tN & HtN & Htiming).
    apply bind_Ok in Htiming as (t0 & Ht0 & Htiming).
    pose proof (mapM_length _ _ _ Hts) as Hlen.
    pose proof (np_min_le_max (diffs timestamps)) as Hspan.
    assert (Hclu : 0 <= INR (length (filter (λ d : R, d < 500) (diffs timestamps)))
                        / flen (diffs timestamps) <= 1).
    { apply ratio_bounds, length_filter. }
    destruct (decide (tN - t0 > 0)) as [Hdur | Hdur]; injection Htiming as <-.
    + split; [reflexivity |].
      split; [eexists; split; [reflexivity | exact Hleft] |].
      split; [eexists; split; [reflexivity | exact Hclu] |].
      split.
      * eexists; split; [reflexivity |].
        apply Rmult_le_pos; [| lra]. apply Rmult_le_pos; [apply pos_INR |].
        left. by apply Rinv_0_lt_compat.
      * eexists _, _. repeat split; try reflexivity; exact Hspan.
    + split; [reflexivity |].
      split; [eexists; split; [reflexivity | exact Hleft] |].
      split; [eexists; split; [reflexivity | exact Hclu] |].
      split; [exists 0; split; [reflexivity | lra] |].
      eexists _, _. repeat split; try reflexivity; exact Hspan.
  - injection Htiming as <-.
    split; [reflexivity |].
    split; [eexists; split; [reflexivity | exact Hleft] |].
    split; [exists 0; split; [reflexivity | lra] |].
    split; [exists 0; split; [reflexivity | lra] |].
    exists 0, 0. repeat split; try reflexivity; lra.
Qed.

Lemma extractClickFeatures_Ok_iff (self : FeatureExtractor.t)
    (clicks : list Click.t) :
  (∃ features, extractClickFeatures self clicks = Ok features)
  ↔ (length clicks <= 1)%nat ∨ Forall (λ c, is_Some (Click.ts c)) clicks.
Proof.
  unfold extractClickFeatures.
  destruct (decide (length clicks = 0)%nat) as [Hz | Hnz].
  { split; [intros _; left; lia | intros _; by eexists]. }
  destruct (decide (length clicks > 1)%nat) as [Hmany | Hone].
  - rewrite <- (mapM_getitem_Ok_iff "ts" Click.ts clicks). split.
    + intros [features Hok]. right.
      apply bind_Ok in Hok as (timing & Htiming & _).
      apply bind_Ok in Htiming as (timestamps & Hts & _). by exists timestamps.
    + intros [Hle | [timestamps Hts]]; [lia |]. rewrite Hts.
      pose proof (mapM_length _ _ _ Hts) as Hlen.
      destruct (last_item_ok timestamps) as [tN HtN]; [lia |].
      destruct (first_item_ok timestamps) as [t0 Ht0]; [lia |].
      cbn [mbind result_bind]. rewrite HtN, Ht0. cbn [mbind result_bind].
      case_decide; by eexists.
  - split; [intros _; left; lia | intros _; by eexists].
Qed.

Lemma extractClickFeatures_ranges_witness :
  let clicks := [Click.mk (Some 1050) (Some 0%Z); Click.mk (Some 1600) (Some 0%Z);
                 Click.mk (Some 1900) (Some 2%Z)] in
  ∃ features : gmap string R,
    extractClickFeatures init clicks = Ok features
    ∧ features !! "clickCount" = Some (INR 3).
Proof.
  intros clicks.
  assert (Hok : ∃ features, extractClickFeatures init clicks = Ok features).
  { apply extractClickFeatures_Ok_iff. right. repeat constructor; by eexists. }
  destruct Hok as [features Hok]. exists features. split; [exact Hok |].
  by destruct (extractClickFeatures_ranges init clicks features Hok) as [Hcount _].
Defined.

(** X11: [extractClickFeatures] raises nothing but [KeyError], and it
    returns exactly when there is at most one click or every click has a
    [ts]: a single click is never asked for its timestamp, and a missing
    [button] never makes it fail. *)
Theorem extractClickFeatures_succeeds_iff (self : FeatureExtractor.t)
    (clicks : list Click.t) :
  ok_or_key_error (extractClickFeatures self clicks)
  ∧ ((∃ features, extractClickFeatures self clicks = Ok features)
     ↔ (length clicks <= 1)%nat ∨ Forall (λ c, is_Some (Click.ts c)) clicks).
Proof.
  split; [apply extractClickFeatures_ok_or_key_error | apply extractClickFeatures_Ok_iff].
Qed.

Lemma extractClickFeatures_succeeds_iff_witness :
  ∃ features, extractClickFeatures init [Click.mk None None] = Ok features.
Proof.
  apply (proj2 (extractClickFeatures_succeeds_iff init [Click.mk None None])).
  left. simpl. lia.
Defined.

(** ** Keystroke features *)

Lemma extractKeystrokeFeatures_Ok_iff (self : FeatureExtractor.t) (keys : list Key.t) :
  (∃ features, extractKeystrokeFeatures self keys = Ok features)
  ↔ Forall (λ k, is_Some (Key.ts k)) keys.
Proof.
  unfold extractKeystrokeFeatures.
  destruct (decide (length keys = 0)%nat) as [Hz | Hnz].
  { apply length_zero_iff_nil in Hz as ->. split; [constructor | by eexists]. }
  rewrite <- (mapM_getitem_Ok_iff "ts" Key.ts keys). split.
  - intros [features Hok]. apply bind_Ok in Hok as (timing & _ & Hok).
    apply bind_Ok in Hok as (timestamps & Hts & _). by exists timestamps.
  - intros [timestamps Hts]. unfold interKeyDelays.
    destruct (decide (length keys > 1)%nat) as [Hmany | Hone].
    + rewrite decide_False by lia. rewrite Hts. cbn [mbind result_bind].
      destruct (decide (length (diffs timestamps) > 0)%nat);
        cbn [mbind result_bind]; case_decide; by eexists.
    + cbn [mbind result_bind]. rewrite Hts. cbn [mbind result_bind].
      case_decide; by eexists.
Qed.

(** X13: [extractKeystrokeFeatures] raises nothing but [KeyError], and it
    returns exactly when every key has a [ts] (a single key is asked for
    its timestamp too); a missing [code] never makes it fail. *)
Theorem extractKeystrokeFeatures_succeeds_iff (self : FeatureExtractor.t)
    (keys : list Key.t) :
  ok_or_key_error (extractKeystrokeFeatures self keys)
  ∧ ((∃ features, extractKeystrokeFeatures self keys = Ok features)
     ↔ Forall (λ k, is_Some (Key.ts k)) keys).
Proof.
  split; [apply extractKeystrokeFeatures_ok_or_key_error
         | apply extractKeystrokeFeatures_Ok_iff].
Qed.

Lemma extractKeystrokeFeatures_succeeds_iff_witness :
  ∃ features,
    extractKeystrokeFeatures init [Key.mk None (Some 1020); Key.mk None (Some 1080)]
    = Ok features.
Proof.
  apply (proj2 (extractKeystrokeFeatures_succeeds_iff init
                  [Key.mk None (Some 1020); Key.mk None (Some 1080)])).
  repeat constructor; by eexists.
Defined.

(** X14: ranges of the keystroke features.  [keyCount] is the number of
    keys, [keyEntropy] is not negative, [keyRapidPresses] is a count of at
    most the number of pairs of consecutive keys, and [keyRatePerSec] is
    not negative. *)
Theorem extractKeystrokeFeatures_ranges (self : FeatureExtractor.t) (keys : list Key.t)
    (features : gmap string R) :
  extractKeystrokeFeatures self keys = Ok features →
  features !! "keyCount" = Some (INR (length keys))
  ∧ (∃ e, features !! "keyEntropy" = Some e ∧ 0 <= e)
  ∧ (∃ rapid : nat, features !! "keyRapidPresses" = Some (INR rapid)
                    ∧ (rapid <= length keys - 1)%nat)
  ∧ (∃ r, features !! "keyRatePerSec" = Some r ∧ 0 <= r).
Proof.
  intros Hok. unfold extractKeystrokeFeatures in Hok.
  set (keyCodes := map (λ k, default "Unknown" (Key.code k)) keys) in *.
  destruct (decide (length keys = 0)%nat) as [Hz | Hnz].
  { injection Hok as <-. rewrite Hz.
    split; [reflexivity |].
    split; [exists 0; split; [reflexivity | lra] |].
    split; [exists 0%nat; split; [reflexivity | lia] |].
    exists 0. split; [reflexivity | lra]. }
  apply bind_Ok in Hok as (timing & Htiming & Hok).
  apply bind_Ok in Hok as (timestamps & Hts & Hok).
  pose proof (calculateEntropy_nonneg keyCodes) as Hent.
  assert (Hrate : 0 <= flen keys / Rmax (np_max timestamps - np_min timestamps) 1 * 1000).
  { apply Rmult_le_pos; [| lra]. apply Rmult_le_pos; [apply pos_INR |].
    left. apply Rinv_0_lt_compat. pose proof (Rmax_r (np_max timestamps - np_min timestamps) 1).
    lra. }
  assert (Htim : timing !! "keyCount" = Some (INR (length keys))
                 ∧ ∃ rapid : nat, timing !! "keyRapidPresses" = Some (INR rapid)
                                  ∧ (rapid <= length keys - 1)%nat).
  { destruct (decide (length keys > 1)%nat) as [Hmany | Hone].
    - apply bind_Ok in Htiming as (delays & Hdelays & Htiming).
      assert (Hlen : length delays = (length keys - 1)%nat).
      { unfold interKeyDelays in Hdelays. rewrite decide_False in Hdelays by lia.
        apply bind_Ok in Hdelays as (ts & Hts' & Hd). injection Hd as <-.
        by rewrite diffs_length, (mapM_length _ _ _ Hts'). }
      destruct (decide (length delays > 0)%nat); injection Htiming as <-.
      + split; [reflexivity |]. eexists. split; [reflexivity |].
        rewrite <- Hlen. apply length_filter.
      + split; [reflexivity |]. exists 0%nat. split; [reflexivity | lia].
    - injection Htiming as <-. split; [reflexivity |].
      exists 0%nat. split; [reflexivity | lia]. }
  destruct Htim as (Hcount & rapid & Hrapid & Hle).
  assert (Hfinal : ∀ v, features = <["keyRatePerSec" := v]>
                                     (<["keyEntropy" := calculateEntropy keyCodes]> timing) →
                        0 <= v →
          features !! "keyCount" = Some (INR (length keys))
          ∧ (∃ e, features !! "keyEntropy" = Some e ∧ 0 <= e)
          ∧ (∃ rapid : nat, features !! "keyRapidPresses" = Some (INR rapid)
                            ∧ (rapid <= length keys - 1)%nat)
          ∧ (∃ r, features !! "keyRatePerSec" = Some r ∧ 0 <= r)).
  { intros v -> Hv. split; [by rewrite !lookup_insert_ne |].
    split; [exists (calculateEntropy keyCodes); split;
            [by rewrite lookup_insert_ne, lookup_insert_eq | exact Hent] |].
    split; [exists rapid; split; [by rewrite !lookup_insert_ne | done] |].
    exists v. split; [by rewrite lookup_insert_eq | done]. }
  case_decide; injection Hok as <-.
  - eapply Hfinal; [reflexivity | exact Hrate].
  - eapply Hfinal; [reflexivity | lra].
Qed.

Lemma extractKeystrokeFeatures_ranges_witness :
  let keys := [Key.mk (Some "KeyH") (Some 1020); Key.mk (Some "KeyE") (Some 1080);
               Key.mk (Some "KeyL") (Some 1160); Key.mk (Some "KeyL") (Some 1230);
               Key.mk (Some "KeyO") (Some 1350)] in
  ∃ features : gmap string R,
    extractKeystrokeFeatures init keys = Ok features
    ∧ features !! "keyCount" = Some (INR 5).
Proof.
  intros keys.
  assert (Hok : ∃ features, extractKeystrokeFeatures init keys = Ok features).
  { apply extractKeystrokeFeatures_Ok_iff. repeat constructor; by eexists. }
  destruct Hok as [features Hok]. exists features. split; [exact Hok |].
  by destruct (extractKeystrokeFeatures_ranges init keys features Hok) as [Hcount _].
Defined.

(** ** Temporal features *)

Lemma entropy_fold_two (total a b : nat) :
  (0 < total)%nat → (0 < a)%nat → (0 < b)%nat →
  fold_left (λ entropy count,
               let p := INR count / INR total in
               if decide (p > 0) then entropy - p * log2 p else entropy) [a; b] 0
  = - (plogp (INR a / INR total) + plogp (INR b / INR total)).
Proof.
  intros Ht Ha Hb. rewrite entropy_fold by (repeat constructor; lia).
  cbn [map]. rewrite !pysum_cons, pysum_nil. lra.
Qed.

Lemma plogp_third : plogp (1 / 3) = - (log2 3 / 3).
Proof.
  unfold plogp, log2. pose proof ln_2_pos.
  replace (1 / 3) with (/ 3) by lra. rewrite ln_Rinv by lra. field. lra.
Qed.

Lemma plogp_two_thirds : plogp (2 / 3) = 2 / 3 - 2 * log2 3 / 3.
Proof.
  unfold plogp, log2. pose proof ln_2_pos.
  replace (ln (2 / 3)) with (ln 2 - ln 3).
  - field. lra.
  - unfold Rdiv. rewrite ln_mult by lra. rewrite ln_Rinv by lra. lra.
Qed.

Lemma entropy_nat_all_equal : calculateEntropy [0; 0; 0]%nat = 0.
Proof.
  apply (calculateEntropy_constant 0%nat). intros y Hy.
  repeat (apply elem_of_cons in Hy as [-> | Hy]; [reflexivity |]).
  by apply elem_of_nil in Hy.
Qed.

Lemma entropy_nat_two_one :
  calculateEntropy [0; 0; 1]%nat = log2 3 - 2 / 3
  ∧ calculateEntropy [0; 1; 0]%nat = log2 3 - 2 / 3
  ∧ calculateEntropy [1; 0; 0]%nat = log2 3 - 2 / 3.
Proof.
  unfold calculateEntropy. cbn [length]. rewrite !decide_False by lia. cbv zeta.
  change (map snd (Counter [0; 0; 1]%nat)) with [2; 1]%nat.
  change (map snd (Counter [0; 1; 0]%nat)) with [2; 1]%nat.
  change (map snd (Counter [1; 0; 0]%nat)) with [1; 2]%nat.
  rewrite !entropy_fold_two by lia.
  replace (INR 2 / INR 3) with (2 / 3) by (simpl; lra).
  replace (INR 1 / INR 3) with (1 / 3) by (simpl; lra).
  rewrite plogp_third, plogp_two_thirds. repeat split; lra.
Qed.

Lemma entropy_nat_all_distinct : calculateEntropy [0; 1; 2]%nat = log2 3.
Proof.
  replace 3 with (INR 3) by (simpl; lra).
  apply (calculateEntropy_uniform [0; 1; 2]%nat [0; 1; 2]%nat 3 1); try done; try lia.
  - apply (bool_decide_unpack _). by vm_compute.
  - intros x Hx.
    repeat (apply elem_of_cons in Hx as [-> | Hx]; [reflexivity |]).
    by apply elem_of_nil in Hx.
Qed.

Lemma diversity_is_diversity_value (m c k : nat) :
  diversity m c k = diversity_value m c k.
Proof.
  unfold diversity_value.
  destruct (decide (m = c ∧ c = k)) as [[-> ->] | Hne].
  { apply diversity_equal_lengths. }
  assert (Ht : (m + c + k > 0)%nat) by lia.
  unfold diversity. rewrite decide_True by done.
  destruct entropy_nat_two_one as (H001 & H010 & H100).
  destruct (decide (m ≠ c ∧ m ≠ k ∧ c ≠ k)) as [(H1 & H2 & H3) | Hsome].
  - rewrite <- entropy_nat_all_distinct. apply calculateEntropy_three_pattern.
    unfold same_equalities. rewrite !share_eq by lia. repeat split; intros; lia || done.
  - destruct (decide (m = c)) as [Hmc | Hmc].
    + rewrite <- H001. apply calculateEntropy_three_pattern.
      unfold same_equalities. rewrite !share_eq by lia.
      repeat split; intros; try lia; try done. 
    + destruct (decide (m = k)) as [Hmk | Hmk].
      * rewrite <- H010. apply calculateEntropy_three_pattern.
        unfold same_equalities. rewrite !share_eq by lia.
        repeat split; intros; try lia; try done.
      * assert (c = k) by (apply dec_stable; intros ?; apply Hsome; done).
        rewrite <- H100. apply calculateEntropy_three_pattern.
        unfold same_equalities. rewrite !share_eq by lia.
        repeat split; intros; try lia; try done.
Qed.

(** X15: [signalDiversityEntropy] takes three values only.  It is the
    entropy of the list of the three signal counts, so it is 0 when the
    three counts are equal, [log2 3] when they are pairwise different and
    [log2 3 - 2/3] when exactly two of them are equal. *)
Theorem signalDiversityEntropy_three_values (self : FeatureExtractor.t)
    (batch : batchData) (features : gmap string R) :
  extractBatchFeatures self batch = Ok features →
  features !! "signalDiversityEntropy"
  = Some (diversity_value (signal_lengths batch).1.1 (signal_lengths batch).1.2
                          (signal_lengths batch).2).
Proof.
  intros Hok. rewrite (extractBatchFeatures_diversity _ _ _ Hok).
  by rewrite diversity_is_diversity_value.
Qed.

Lemma signalDiversityEntropy_three_values_witness :
  let batch := mkBatch (Some [Move.mk (Some 1) (Some 2) (Some 1000)])
                       (Some [Click.mk (Some 1050) None]) None in
  ∃ features : gmap string R,
    extractBatchFeatures init batch = Ok features
    ∧ features !! "signalDiversityEntropy" = Some (log2 3 - 2 / 3).
Proof.
  intros batch.
  assert (Hok : ∃ features, extractBatchFeatures init batch = Ok features)
    by (eexists; reflexivity).
  destruct Hok as [features Hok]. exists features. split; [exact Hok |].
  by rewrite (signalDiversityEntropy_three_values init batch features Hok).
Defined.

Lemma extractTemporalFeatures_Ok_iff (self : FeatureExtractor.t) (moves : list Move.t)
    (clicks : list Click.t) (keys : list Key.t) :
  (∃ features, extractTemporalFeatures self moves clicks keys = Ok features)
  ↔ Forall (λ m, is_Some (Move.ts m)) moves
    ∧ Forall (λ c, is_Some (Click.ts c)) clicks
    ∧ Forall (λ k, is_Some (Key.ts k)) keys.
Proof.
  rewrite <- (mapM_getitem_Ok_iff "ts" Move.ts moves).
  rewrite <- (mapM_getitem_Ok_iff "ts" Click.ts clicks).
  rewrite <- (mapM_getitem_Ok_iff "ts" Key.ts keys).
  unfold extractTemporalFeatures. split.
  - intros [features Hok].
    apply bind_Ok in Hok as (tm & Htm & Hok).
    apply bind_Ok in Hok as (tc & Htc & Hok).
    apply bind_Ok in Hok as (tk & Htk & _).
    split; [by exists tm | split; [by exists tc | by exists tk]].
  - intros ([tm ->] & [tc ->] & [tk ->]). by eexists.
Qed.

(** X16: [extractTemporalFeatures] raises nothing but [KeyError] and returns
    exactly when every move, click and key has a [ts].  Its
    [batchDurationMs], [eventRatePerSec], [clickToMoveRatio] and
    [keyToMoveRatio] are never negative, and the two ratios are 0 when
    there is no mouse move. *)
Theorem extractTemporalFeatures_ranges (self : FeatureExtractor.t) (moves : list Move.t)
    (clicks : list Click.t) (keys : list Key.t) :
  ok_or_key_error (extractTemporalFeatures self moves clicks keys)
  ∧ ((∃ features, extractTemporalFeatures self moves clicks keys = Ok features)
     ↔ Forall (λ m, is_Some (Move.ts m)) moves
       ∧ Forall (λ c, is_Some (Click.ts c)) clicks
       ∧ Forall (λ k, is_Some (Key.ts k)) keys)
  ∧ (∀ features, extractTemporalFeatures self moves clicks keys = Ok features →
       (∃ d, features !! "batchDurationMs" = Some d ∧ 0 <= d)
       ∧ (∃ r, features !! "eventRatePerSec" = Some r ∧ 0 <= r)
       ∧ (∃ r, features !! "clickToMoveRatio" = Some r ∧ 0 <= r
               ∧ (moves = [] → r = 0))
       ∧ (∃ r, features !! "keyToMoveRatio" = Some r ∧ 0 <= r
               ∧ (moves = [] → r = 0))).
Proof.
  split; [apply extractTemporalFeatures_ok_or_key_error |].
  split; [apply extractTemporalFeatures_Ok_iff |].
  intros features Hok. unfold extractTemporalFeatures in Hok.
  apply bind_Ok in Hok as (tm & _ & Hok).
  apply bind_Ok in Hok as (tc & _ & Hok).
  apply bind_Ok in Hok as (tk & _ & Hok).
  injection Hok as <-.
  set (allTimestamps := (tm ++ tc) ++ tk).
  pose proof (np_min_le_max allTimestamps) as Hdur.
  assert (Hrate : 0 <= INR (length moves + length clicks + length keys)
                       / Rmax (np_max allTimestamps - np_min allTimestamps) 1 * 1000).
  { apply Rmult_le_pos; [| lra]. apply Rmult_le_pos; [apply pos_INR |].
    left. apply Rinv_0_lt_compat.
    pose proof (Rmax_r (np_max allTimestamps - np_min allTimestamps) 1). lra. }
  assert (Hratio : ∀ n, (length moves > 0)%nat → 0 <= INR n / flen moves).
  { intros n Hm. apply Rmult_le_pos; [apply pos_INR |].
    left. apply Rinv_0_lt_compat, lt_0_INR. lia. }
  assert (Hnil : moves = [] → ¬ (length moves > 0)%nat) by (intros ->; simpl; lia).
  split; [| split; [| split]].
  - destruct (decide (length allTimestamps >= 2)%nat).
    + exists (np_max allTimestamps - np_min allTimestamps).
      split; [repeat case_decide; reflexivity | lra].
    + exists 0. split; [repeat case_decide; reflexivity | lra].
  - destruct (decide (length allTimestamps >= 2)%nat).
    + eexists. split; [repeat case_decide; reflexivity | exact Hrate].
    + exists 0. split; [repeat case_decide; reflexivity | lra].
  - destruct (decide (length moves > 0)%nat) as [Hm | Hm].
    + exists (flen clicks / flen moves).
      split; [repeat case_decide; reflexivity |]. split; [by apply Hratio |].
      intros Hmoves. by apply Hnil in Hmoves.
    + exists 0. split; [repeat case_decide; reflexivity |]. split; [lra | done].
  - destruct (decide (length moves > 0)%nat) as [Hm | Hm].
    + exists (flen keys / flen moves).
      split; [repeat case_decide; reflexivity |]. split; [by apply Hratio |].
      intros Hmoves. by apply Hnil in Hmoves.
    + exists 0. split; [repeat case_decide; reflexivity |]. split; [lra | done].
Qed.

Lemma extractTemporalFeatures_ranges_witness :
  ∃ features : gmap string R,
    extractTemporalFeatures init [Move.mk None None (Some 1000)]
                            [Click.mk (Some 1050) None] [] = Ok features.
Proof.
  destruct (extractTemporalFeatures_ranges init [Move.mk None None (Some 1000)]
              [Click.mk (Some 1050) None] []) as (_ & Hiff & _).
  apply Hiff. repeat split; repeat constructor; by eexists.
Defined.

(** ** Mouse features *)

Lemma velocity_nonneg (d t : R) : 0 <= d → 0 <= velocityPixelsPerSecond d t.
Proof.
  intros Hd. unfold velocityPixelsPerSecond. case_decide as Ht; [lra |].
  apply Rmult_le_pos; [| lra]. apply Rmult_le_pos; [done |].
  left. apply Rinv_0_lt_compat. lra.
Qed.

Lemma velocities_nonneg (distances timeDeltas : list R) :
  Forall (λ d, 0 <= d) distances →
  Forall (λ v, 0 <= v) (zip_with velocityPixelsPerSecond distances timeDeltas).
Proof.
  intros Hd. revert timeDeltas.
  induction Hd as [| d ds Hd _ IH]; intros [| t ts]; cbn [zip_with]; try constructor.
  - by apply velocity_nonneg.
  - apply IH.
Qed.

Lemma distances_nonneg (coords : list (R * R)) :
  Forall (λ d, 0 <= d) (map (λ s, distance s.1 s.2) (segments coords)).
Proof. apply Forall_fmap, Forall_forall. intros s _. apply distance_nonneg. Qed.

Lemma np_mean_nonneg (xs : list R) : Forall (λ x, 0 <= x) xs → 0 <= np_mean xs.
Proof.
  intros Hxs. unfold np_mean, flen. destruct xs as [| a xs].
  - rewrite pysum_nil. unfold Rdiv. rewrite Rmult_0_l. lra.
  - apply Rmult_le_pos; [by apply pysum_nonneg |].
    left. apply Rinv_0_lt_compat, lt_0_INR. simpl. lia.
Qed.

(** X17: ranges of the mouse features.  [mouseMoveCount] is the number of
    moves, the average and the maximum velocity are not negative,
    [mousePauseCount] is 0 or 1, [mouseHoverFrequency] lies between 0 and
    1, and [mousePathEfficiency] is not negative. *)
Theorem extractMouseFeatures_ranges (self : FeatureExtractor.t) (moves : list Move.t)
    (features : gmap string R) :
  extractMouseFeatures self moves = Ok features →
  features !! "mouseMoveCount" = Some (INR (length moves))
  ∧ (∃ avg top, features !! "mouseAvgVelocity" = Some avg
                ∧ features !! "mouseMaxVelocity" = Some top
                ∧ 0 <= avg ∧ 0 <= top)
  ∧ (∃ n : nat, features !! "mousePauseCount" = Some (INR n) ∧ (n <= 1)%nat)
  ∧ (∃ r, features !! "mouseHoverFrequency" = Some r ∧ 0 <= r <= 1)
  ∧ (∃ e, features !! "mousePathEfficiency" = Some e ∧ 0 <= e).
Proof.
  unfold extractMouseFeatures.
  destruct (decide (length moves < 2)%nat) as [Hlt | Hge].
  { intros [= <-].
    split; [reflexivity |].
    split; [exists 0, 0; repeat split; try reflexivity; lra |].
    split; [exists 0%nat; split; [reflexivity | lia] |].
    split; [exists 0; split; [reflexivity | lra] |].
    exists 0. split; [reflexivity | lra]. }
  intros Hok.
  apply bind_Ok in Hok as ([coords timeDeltas] & Hcoords & Hok).
  apply bind_Ok in Hok as ([pauseCount totalPauseMs] & Hpause & Hok).
  apply bind_Ok in Hok as (c0 & _ & Hok).
  apply bind_Ok in Hok as (cN & _ & Hok).
  injection Hok as <-.
  set (distances := map (λ s, distance s.1 s.2) (segments coords)) in *.
  set (velocities := zip_with velocityPixelsPerSecond distances timeDeltas) in *.
  pose proof (velocities_nonneg distances timeDeltas (distances_nonneg coords)) as Hvel.
  fold velocities in Hvel.
  (* pause count *)
  assert (Hpc : (pauseCount <= 1)%nat).
  { destruct (extractCoordinatesAndTimes_lengths moves coords timeDeltas) as [Hc Ht];
      [lia | done |].
    destruct coords as [| p [| q coords]]; [simpl in Hc; lia | simpl in Hc; lia |].
    destruct timeDeltas as [| dt timeDeltas]; [simpl in Ht; lia |].
    unfold unpack in Hpause. rewrite detectPauses_value in Hpause.
    case_decide; injection Hpause as <- _; lia. }
  split; [case_decide; reflexivity |].
  split.
  { destruct (decide (velocities = [])) as [Hnil | Hne].
    - exists 0, 0. split; [case_decide; reflexivity |].
      split; [case_decide; reflexivity | split; lra].
    - exists (np_mean velocities), (np_max velocities).
      split; [case_decide; reflexivity |]. split; [case_decide; reflexivity |].
      split; [by apply np_mean_nonneg | by apply np_max_nonneg]. }
  split; [exists pauseCount; split; [case_decide; reflexivity | done] |].
  split.
  - eexists. split; [case_decide; reflexivity |].
    apply ratio_bounds. etrans; [apply length_filter |]. lia.
  - eexists. split; [case_decide; reflexivity |].
    apply Rmult_le_pos; [apply pysum_nonneg, distances_nonneg |].
    left. apply Rinv_0_lt_compat. pose proof (Rmax_r (distance c0 cN) 1). lra.
Qed.

Lemma extractMouseFeatures_ranges_witness :
  let moves := [Move.mk (Some 100) (Some 200) (Some 1000);
                Move.mk (Some 120) (Some 210) (Some 1100);
                Move.mk (Some 140) (Some 220) (Some 1300)] in
  ∃ features : gmap string R,
    extractMouseFeatures init moves = Ok features
    ∧ features !! "mouseMoveCount" = Some (INR 3).
Proof.
  intros moves.
  destruct (extractMouseFeatures_path init moves
              [(100, 200); (120, 210); (140, 220)] [1100 - 1000; 1300 - 1100])
    as (features & _ & _ & _ & _ & Hok & _); [simpl; lia | reflexivity |].
  exists features. split; [exact Hok |].
  by destruct (extractMouseFeatures_ranges init moves features Hok) as [Hcount _].
Defined.

(** ** When extraction succeeds *)

Lemma extractMouseFeatures_Ok_iff (self : FeatureExtractor.t) (moves : list Move.t) :
  (∃ features, extractMouseFeatures self moves = Ok features)
  ↔ (length moves < 2)%nat
    ∨ Forall (λ m, is_Some (Move.x m) ∧ is_Some (Move.y m) ∧ is_Some (Move.ts m)) moves.
Proof.
  rewrite <- extractCoordinatesAndTimes_Ok_iff.
  destruct (decide (length moves < 2)%nat) as [Hlt | Hge].
  - split; intros _.
    + unfold extractCoordinatesAndTimes. rewrite decide_True by done. by eexists.
    + unfold extractMouseFeatures. rewrite decide_True by done. by eexists.
  - split.
    + intros [features Hok]. unfold extractMouseFeatures in Hok.
      rewrite decide_False in Hok by done.
      apply bind_Ok in Hok as (r & Hr & _). by exists r.
    + intros [[coords timeDeltas] Hcoords].
      destruct (extractMouseFeatures_path self moves coords timeDeltas)
        as (features & _ & _ & _ & _ & Hok & _); [lia | done |]. by exists features.
Qed.

Lemma extractBatchFeatures_Ok_iff (self : FeatureExtractor.t) (batch : batchData) :
  (∃ features, extractBatchFeatures self batch = Ok features) ↔ well_formed batch.
Proof.
  unfold well_formed. cbv zeta.
  set (moves := default [] (mouseMoves batch)).
  set (cs := default [] (clicks batch)). set (ks := default [] (keys batch)).
  pose proof (extractMouseFeatures_Ok_iff self moves) as Hm.
  pose proof (extractClickFeatures_Ok_iff self cs) as Hc.
  pose proof (extractKeystrokeFeatures_Ok_iff self ks) as Hk.
  pose proof (extractTemporalFeatures_Ok_iff self moves cs ks) as Ht.
  unfold extractBatchFeatures. fold moves cs ks. split.
  - intros [features Hok].
    apply bind_Ok in Hok as (mf & Hmf & Hok).
    apply bind_Ok in Hok as (cf & Hcf & Hok).
    apply bind_Ok in Hok as (kf & Hkf & Hok).
    apply bind_Ok in Hok as (tf & Htf & _).
    destruct (proj1 Ht (ex_intro _ tf Htf)) as (Htm & Htc & Htk).
    split; [done |]. split; [done |]. split; [done |].
    intros Hlen. destruct (proj1 Hm (ex_intro _ mf Hmf)) as [Hlt | Hall]; [lia |].
    eapply Forall_impl; [exact Hall |]. by intros m (? & ? & ?).
  - intros (Htm & Htc & Htk & Hxy).
    destruct (proj2 Hm) as [mf ->].
    { destruct (decide (length moves < 2)%nat) as [Hlt | Hge]; [by left | right].
      assert (Hxy' := Hxy ltac:(lia)).
      apply Forall_forall. intros m Hin.
      rewrite Forall_forall in Hxy', Htm.
      destruct (Hxy' m Hin). by split; [| split; [| apply Htm]]. }
    destruct (proj2 Hc (or_intror Htc)) as [cf ->].
    destruct (proj2 Hk Htk) as [kf ->].
    destruct (proj2 Ht (conj Htm (conj Htc Htk))) as [tf ->].
    by eexists.
Qed.

(** X18: [extractBatchFeatures] raises nothing but [KeyError], and it
    returns exactly on the well-formed batches: every event has its [ts],
    and the moves have their [x] and [y] as soon as there are two of
    them. *)
Theorem extractBatchFeatures_succeeds_iff (self : FeatureExtractor.t)
    (batch : batchData) :
  ok_or_key_error (extractBatchFeatures self batch)
  ∧ ((∃ features, extractBatchFeatures self batch = Ok features) ↔ well_formed batch).
Proof.
  split; [apply extractBatchFeatures_ok_or_key_error | apply extractBatchFeatures_Ok_iff].
Qed.

Lemma extractBatchFeatures_succeeds_iff_witness :
  ∃ features,
    extractBatchFeatures init
      (mkBatch (Some [Move.mk None None (Some 1000)])
               (Some [Click.mk (Some 1050) None; Click.mk (Some 1600) None])
               None) = Ok features.
Proof.
  apply (proj2 (extractBatchFeatures_succeeds_iff init _)).
  unfold well_formed. cbn [default mouseMoves clicks keys length].
  split; [repeat constructor; by eexists |].
  split; [repeat constructor; by eexists |].
  split; [constructor |]. intros Hlen. simpl in Hlen. lia.
Defined.

Lemma feature_keys_disjoint (no_keys : bool) :
  mouse_keys ∩ click_keys = ∅
  ∧ mouse_keys ∩ keystroke_keys no_keys = ∅
  ∧ mouse_keys ∩ temporal_keys = ∅
  ∧ click_keys ∩ keystroke_keys no_keys = ∅
  ∧ click_keys ∩ temporal_keys = ∅
  ∧ keystroke_keys no_keys ∩ temporal_keys = ∅.
Proof.
  destruct no_keys; repeat split; apply (bool_decide_unpack _); vm_compute; exact I.
Qed.

Lemma not_in_other (A B : gset string) (name : string) :
  A ∩ B = ∅ → name ∈ A → name ∉ B.
Proof.
  intros Hd Ha Hb. assert (Hab : name ∈ A ∩ B) by (by apply elem_of_intersection).
  rewrite Hd in Hab. by apply elem_of_empty in Hab.
Qed.

(** X19: the dictionary that [extractBatchFeatures] returns has 33 keys.
    [batch_event_count] is the number of events of the three signals, each
    [has_*] flag is 1 exactly when its signal is not empty, and no value
    of the four extractors is overwritten by the merge: their key sets are
    disjoint from each other and from the four batch keys. *)
Theorem extractBatchFeatures_merges (self : FeatureExtractor.t) (batch : batchData)
    (features : gmap string R) :
  extractBatchFeatures self batch = Ok features →
  let moves := default [] (mouseMoves batch) in
  let clicks := default [] (clicks batch) in
  let keys := default [] (keys batch) in
  size (dom features) = 33%nat
  ∧ features !! "batch_event_count"
    = Some (INR (length moves + length clicks + length keys))
  ∧ features !! "has_mouse_moves" = Some (if decide (moves = []) then 0 else 1)
  ∧ features !! "has_clicks" = Some (if decide (clicks = []) then 0 else 1)
  ∧ features !! "has_keys" = Some (if decide (keys = []) then 0 else 1)
  ∧ ∃ mouse click keystroke temporal : gmap string R,
      extractMouseFeatures self moves = Ok mouse
      ∧ extractClickFeatures self clicks = Ok click
      ∧ extractKeystrokeFeatures self keys = Ok keystroke
      ∧ extractTemporalFeatures self moves clicks keys = Ok temporal
      ∧ ∀ (name : string) (v : R),
          mouse !! name = Some v ∨ click !! name = Some v
          ∨ keystroke !! name = Some v ∨ temporal !! name = Some v →
          features !! name = Some v.
Proof.
  intros Hok moves cs ks. split.
  { rewrite (extractBatchFeatures_dom _ _ _ Hok). by destruct (bool_decide _). }
  unfold extractBatchFeatures in Hok. fold moves cs ks in Hok.
  apply bind_Ok in Hok as (mf & Hmf & Hok).
  apply bind_Ok in Hok as (cf & Hcf & Hok).
  apply bind_Ok in Hok as (kf & Hkf & Hok).
  apply bind_Ok in Hok as (tf & Htf & Hok).
  injection Hok as <-. unfold update.
  pose proof (extractMouseFeatures_dom _ _ _ Hmf) as Dm.
  pose proof (extractClickFeatures_dom _ _ _ Hcf) as Dc.
  pose proof (extractKeystrokeFeatures_dom _ _ _ Hkf) as Dk.
  pose proof (extractTemporalFeatures_dom _ _ _ _ _ Htf) as Dt.
  set (nk := bool_decide (ks = [])) in *.
  destruct (feature_keys_disjoint nk) as (Dmc & Dmk & Dmt & Dck & Dct & Dkt).
  assert (Hbase : ∀ name : string,
             name ∉ mouse_keys ∪ click_keys ∪ keystroke_keys nk ∪ temporal_keys →
             ∀ base : gmap string R,
               (tf ∪ (kf ∪ (cf ∪ (mf ∪ base)))) !! name = base !! name).
  { intros name Hout base.
    rewrite !not_elem_of_union in Hout. destruct Hout as [[[Nm Nc] Nk] Nt].
    rewrite lookup_union_r by (apply not_elem_of_dom; by rewrite Dt).
    rewrite lookup_union_r by (apply not_elem_of_dom; by rewrite Dk).
    rewrite lookup_union_r by (apply not_elem_of_dom; by rewrite Dc).
    by rewrite lookup_union_r by (apply not_elem_of_dom; by rewrite Dm). }
  assert (Hout : ∀ name : string,
             name ∈ ({[ "batch_event_count"; "has_mouse_moves"; "has_clicks";
                        "has_keys" ]} : gset string) →
             name ∉ mouse_keys ∪ click_keys ∪ keystroke_keys nk ∪ temporal_keys).
  { intros name Hin.
    assert (Hd : ({[ "batch_event_count"; "has_mouse_moves"; "has_clicks";
                     "has_keys" ]} : gset string)
                 ∩ (mouse_keys ∪ click_keys ∪ keystroke_keys nk ∪ temporal_keys) = ∅).
    { destruct nk; apply (bool_decide_unpack _); vm_compute; exact I. }
    by apply (not_in_other _ _ _ Hd). }
  split.
  { rewrite Hbase by (apply Hout, (bool_decide_unpack _); vm_compute; exact I).
    reflexivity. }
  split.
  { rewrite Hbase by (apply Hout, (bool_decide_unpack _); vm_compute; exact I).
    destruct moves; reflexivity. }
  split.
  { rewrite Hbase by (apply Hout, (bool_decide_unpack _); vm_compute; exact I).
    destruct cs; reflexivity. }
  split.
  { rewrite Hbase by (apply Hout, (bool_decide_unpack _); vm_compute; exact I).
    destruct ks; reflexivity. }
  exists mf, cf, kf, tf. repeat (split; [done |]).
  intros name v [Hm | [Hc | [Hk | Ht]]].
  - assert (Hin : name ∈ mouse_keys) by (rewrite <- Dm; apply elem_of_dom; eauto).
    rewrite lookup_union_r
      by (apply not_elem_of_dom; rewrite Dt; by apply (not_in_other _ _ _ Dmt)).
    rewrite lookup_union_r
      by (apply not_elem_of_dom; rewrite Dk; by apply (not_in_other _ _ _ Dmk)).
    rewrite lookup_union_r
      by (apply not_elem_of_dom; rewrite Dc; by apply (not_in_other _ _ _ Dmc)).
    by apply lookup_union_Some_l.
  - assert (Hin : name ∈ click_keys) by (rewrite <- Dc; apply elem_of_dom; eauto).
    rewrite lookup_union_r
      by (apply not_elem_of_dom; rewrite Dt; by apply (not_in_other _ _ _ Dct)).
    rewrite lookup_union_r
      by (apply not_elem_of_dom; rewrite Dk; by apply (not_in_other _ _ _ Dck)).
    by apply lookup_union_Some_l.
  - assert (Hin : name ∈ keystroke_keys nk) by (rewrite <- Dk; apply elem_of_dom; eauto).
    rewrite lookup_union_r
      by (apply not_elem_of_dom; rewrite Dt; by apply (not_in_other _ _ _ Dkt)).
    by apply lookup_union_Some_l.
  - by apply lookup_union_Some_l.
Qed.

Lemma extractBatchFeatures_merges_witness :
  let batch := mkBatch (Some [Move.mk (Some 1) (Some 2) (Some 1000)])
                       (Some [Click.mk (Some 1050) None]) None in
  ∃ features : gmap string R,
    extractBatchFeatures init batch = Ok features
    ∧ size (dom features) = 33%nat
    ∧ features !! "batch_event_count" = Some (INR 2).
Proof.
  intros batch.
  assert (Hok : ∃ features, extractBatchFeatures init batch = Ok features)
    by (eexists; reflexivity).
  destruct Hok as [features Hok]. exists features. split; [exact Hok |].
  destruct (extractBatchFeatures_merges init batch features Hok) as (Hsize & Hcount & _).
  split; [exact Hsize | exact Hcount].
Defined.

(** ** Dataset builders, continued *)

Lemma mapM_Ok_iff {A B : Type} (f : A → result B) (l : list A) :
  (∃ bs, mapM f l = Ok bs) ↔ Forall (λ a, ∃ b, f a = Ok b) l.
Proof.
  split; [| apply mapM_Ok_intro].
  intros [bs Hok]. apply mapM_Forall2 in Hok.
  induction Hok as [| a b l bs Hb _ IH]; constructor; [by exists b | done].
Qed.

Lemma buildBatchLevelDataset_Ok_iff (self : DatasetBuilder.t) :
  (∃ rows, DatasetBuilder.buildBatchLevelDataset self = Ok rows)
  ↔ Forall (λ row, well_formed (batch_of row)) (DatasetBuilder.loadSignals self).
Proof.
  unfold DatasetBuilder.buildBatchLevelDataset. cbv zeta.
  case_decide as Hz.
  { apply length_zero_iff_nil in Hz. rewrite Hz. split; [constructor | by eexists]. }
  split.
  - intros [rows Hok]. apply bind_Ok in Hok as (featureRows & Hrows & _).
    apply mapM_Forall2 in Hrows. apply Forall_forall. intros row Hin.
    apply list_elem_of_lookup in Hin as [i Hi].
    destruct (Forall2_lookup_l _ _ _ _ _ Hrows Hi) as (r & _ & Hr).
    apply bind_Ok in Hr as (feats & Hfeats & _).
    apply (proj1 (extractBatchFeatures_Ok_iff (DatasetBuilder.extractor self)
                    (batch_of row))).
    by exists feats.
  - intros Hall.
    destruct (mapM_Ok_intro
                (λ row, feats ← extractBatchFeatures (DatasetBuilder.extractor self)
                                  (batch_of row);
                        Ok (DatasetBuilder.mkFeature
                              (DatasetBuilder.sig_sessionID row)
                              (DatasetBuilder.sig_timestamp row)
                              (DatasetBuilder.sig_timestampRelativeMs row) feats))
                (DatasetBuilder.loadSignals self)) as [rows Hrows].
    { eapply Forall_impl; [exact Hall |]. intros row Hwf.
      destruct (proj2 (extractBatchFeatures_Ok_iff (DatasetBuilder.extractor self)
                         (batch_of row)) Hwf) as [feats ->].
      by eexists. }
    exists rows. unfold batch_of in Hrows. by rewrite Hrows.
Qed.

Lemma buildBatchLevelDataset_rows (self : DatasetBuilder.t)
    (rows : list DatasetBuilder.featureRow) :
  DatasetBuilder.buildBatchLevelDataset self = Ok rows →
  Forall2 (λ row r,
             DatasetBuilder.sessionID r = DatasetBuilder.sig_sessionID row
             ∧ DatasetBuilder.timestamp r = DatasetBuilder.sig_timestamp row
             ∧ DatasetBuilder.timestampRelativeMs r
               = DatasetBuilder.sig_timestampRelativeMs row
             ∧ extractBatchFeatures (DatasetBuilder.extractor self) (batch_of row)
               = Ok (DatasetBuilder.feats r))
          (DatasetBuilder.loadSignals self) rows.
Proof.
  unfold DatasetBuilder.buildBatchLevelDataset. cbv zeta.
  case_decide as Hz.
  { apply length_zero_iff_nil in Hz. rewrite Hz. intros [= <-]. constructor. }
  intros Hok. apply bind_Ok in Hok as (featureRows & Hrows & Hok).
  injection Hok as <-. apply mapM_Forall2 in Hrows.
  eapply Forall2_impl; [exact Hrows |]. intros row r Hr.
  apply bind_Ok in Hr as (feats & Hfeats & Hr). injection Hr as <-. done.
Qed.

Lemma buildBatchLevelDataset_ok_or_key_error (self : DatasetBuilder.t) :
  ok_or_key_error (DatasetBuilder.buildBatchLevelDataset self).
Proof.
  unfold DatasetBuilder.buildBatchLevelDataset. cbv zeta.
  case_decide; [left; by eexists |].
  apply bind_ok_or_key_error; [| intros rows _; left; by eexists].
  apply mapM_ok_or_key_error. intros row.
  apply bind_ok_or_key_error; [apply extractBatchFeatures_ok_or_key_error |].
  intros feats _. left. by eexists.
Qed.

Lemma buildBatchLevelDataset_key_error (self : DatasetBuilder.t) :
  ¬ Forall (λ row, well_formed (batch_of row)) (DatasetBuilder.loadSignals self) →
  ∃ k, DatasetBuilder.buildBatchLevelDataset self = Err (KeyError k).
Proof.
  intros Hbad.
  destruct (buildBatchLevelDataset_ok_or_key_error self) as [Hok | Herr]; [| done].
  by apply buildBatchLevelDataset_Ok_iff in Hok.
Qed.

(** X20: one malformed row fails the whole build.  When the batch-level
    builder returns, every loaded row was a well-formed batch and the
    rows returned are the loaded rows in order, each with its session id,
    its two timestamps and the features of its batch; when the
    session-level builder returns, every loaded row was well formed too.
    When some loaded row is not well formed, both builders raise
    [KeyError], which happens while the rows are extracted and before any
    file is written. *)
Theorem buildBatchLevelDataset_all_or_nothing (self : DatasetBuilder.t) :
  (∀ rows, DatasetBuilder.buildBatchLevelDataset self = Ok rows →
     Forall (λ row, well_formed (batch_of row)) (DatasetBuilder.loadSignals self)
     ∧ Forall2 (λ row r,
                  DatasetBuilder.sessionID r = DatasetBuilder.sig_sessionID row
                  ∧ DatasetBuilder.timestamp r = DatasetBuilder.sig_timestamp row
                  ∧ DatasetBuilder.timestampRelativeMs r
                    = DatasetBuilder.sig_timestampRelativeMs row
                  ∧ extractBatchFeatures (DatasetBuilder.extractor self) (batch_of row)
                    = Ok (DatasetBuilder.feats r))
               (DatasetBuilder.loadSignals self) rows)
  ∧ (∀ sessions, DatasetBuilder.buildSessionLevelDataset self = Ok sessions →
       Forall (λ row, well_formed (batch_of row)) (DatasetBuilder.loadSignals self))
  ∧ (¬ Forall (λ row, well_formed (batch_of row)) (DatasetBuilder.loadSignals self) →
     (∃ k, DatasetBuilder.buildBatchLevelDataset self = Err (KeyError k))
     ∧ (∃ k, DatasetBuilder.buildSessionLevelDataset self = Err (KeyError k))).
Proof.
  split; [| split].
  - intros rows Hok. split; [| by apply buildBatchLevelDataset_rows].
    apply buildBatchLevelDataset_Ok_iff. by exists rows.
  - intros sessions Hok. unfold DatasetBuilder.buildSessionLevelDataset in Hok.
    apply bind_Ok in Hok as (rows & Hrows & _).
    apply buildBatchLevelDataset_Ok_iff. by exists rows.
  - intros Hbad. destruct (buildBatchLevelDataset_key_error self Hbad) as [k Hk].
    split; [by exists k |]. exists k.
    unfold DatasetBuilder.buildSessionLevelDataset. by rewrite Hk.
Qed.

Lemma buildBatchLevelDataset_all_or_nothing_witness :
  let good := DatasetBuilder.mkSignal "sess-1" "2025-01-01T00:00:01Z" 0 [] []
                [Key.mk (Some "KeyH") (Some 1020)] in
  let bad := DatasetBuilder.mkSignal "sess-1" "2025-01-01T00:00:02Z" 1000 [] []
               [Key.mk (Some "KeyE") None] in
  ∃ k, DatasetBuilder.buildSessionLevelDataset (DatasetBuilder.mk [good; bad] init)
       = Err (KeyError k).
Proof.
  intros good bad.
  apply (proj2 (proj2 (buildBatchLevelDataset_all_or_nothing
                         (DatasetBuilder.mk [good; bad] init)))).
  intros Hall. cbn [DatasetBuilder.loadSignals] in Hall.
  apply Forall_cons in Hall as [_ Hbad]. apply Forall_cons in Hbad as [Hbad _].
  destruct Hbad as (_ & _ & Hkeys & _). cbn in Hkeys.
  apply Forall_cons in Hkeys as [[t Ht] _]. discriminate Ht.
Defined.

(** ** Sessions *)

Section Unique.
Context {A : Type} `{EqDecision A}.

Lemma elem_of_unique (l : list A) (x : A) : x ∈ pd.unique l ↔ x ∈ l.
Proof.
  induction l as [| a l IH]; [done |]. cbn [pd.unique].
  rewrite !elem_of_cons, list_elem_of_filter, IH.
  destruct (decide (x = a)); intuition congruence.
Qed.

Lemma NoDup_unique (l : list A) : NoDup (pd.unique l).
Proof.
  induction l as [| a l IH]; [constructor |]. cbn [pd.unique].
  constructor; [| by apply NoDup_filter].
  rewrite list_elem_of_filter. by intros [Hne _].
Qed.

Lemma occurrences_fmap {B : Type} (f : B → A) (x : A) (l : list B) :
  occurrences x (map f l) = length (filter (λ b, f b = x) l).
Proof.
  unfold occurrences. induction l as [| b l IH]; [done |].
  cbn [map]. rewrite !filter_cons. destruct (decide (f b = x)); simpl; by rewrite IH.
Qed.
End Unique.

Lemma buildSessionLevelDataset_inv (self : DatasetBuilder.t)
    (batchDf : list DatasetBuilder.featureRow)
    (sessionDf : list DatasetBuilder.sessionRow) :
  DatasetBuilder.buildBatchLevelDataset self = Ok batchDf →
  DatasetBuilder.buildSessionLevelDataset self = Ok sessionDf →
  sessionDf
  = map (λ sessionId,
           let sessionData :=
             filter (λ r, DatasetBuilder.sessionID r = sessionId) batchDf in
           DatasetBuilder.mkSession sessionId (length sessionData)
             (fold_left (λ row col, DatasetBuilder.columnStats sessionData col row)
                (elements (⋃ (map (λ r, dom (DatasetBuilder.feats r)) batchDf)
                           : gset string)) ∅))
        (pd.unique (map DatasetBuilder.sessionID batchDf)).
Proof.
  intros Hbatch Hok. unfold DatasetBuilder.buildSessionLevelDataset in Hok.
  rewrite Hbatch in Hok. cbn [mbind result_bind] in Hok.
  case_decide as Hz; injection Hok as <-; [| reflexivity].
  apply length_zero_iff_nil in Hz. by rewrite Hz.
Qed.

(** X21: the session-level frame has one row per session of the batch-level
    frame: no session id occurs twice, the session ids are those of the
    batches, [batchCount] is the number of batches of the session and at
    least 1, and the batch counts add up to the number of batches. *)
Theorem buildSessionLevelDataset_sessions (self : DatasetBuilder.t)
    (batchDf : list DatasetBuilder.featureRow)
    (sessionDf : list DatasetBuilder.sessionRow) :
  DatasetBuilder.buildBatchLevelDataset self = Ok batchDf →
  DatasetBuilder.buildSessionLevelDataset self = Ok sessionDf →
  NoDup (map DatasetBuilder.ses_sessionID sessionDf)
  ∧ (∀ s, s ∈ map DatasetBuilder.ses_sessionID sessionDf
          ↔ s ∈ map DatasetBuilder.sessionID batchDf)
  ∧ Forall (λ row,
              DatasetBuilder.batchCount row
              = length (filter (λ r, DatasetBuilder.sessionID r
                                     = DatasetBuilder.ses_sessionID row) batchDf)
              ∧ (1 <= DatasetBuilder.batchCount row)%nat) sessionDf
  ∧ sum_list (map DatasetBuilder.batchCount sessionDf) = length batchDf.
Proof.
  intros Hbatch Hok.
  rewrite (buildSessionLevelDataset_inv self batchDf sessionDf Hbatch Hok).
  set (ids := pd.unique (map DatasetBuilder.sessionID batchDf)).
  rewrite !map_map. cbn [DatasetBuilder.ses_sessionID DatasetBuilder.batchCount].
  rewrite map_id.
  split; [apply NoDup_unique |]. split; [intros s; apply elem_of_unique |]. split.
  - apply Forall_fmap, Forall_forall. intros s Hs. simpl. split; [done |].
    unfold ids in Hs. rewrite elem_of_unique in Hs.
    apply occurrences_pos in Hs. rewrite occurrences_fmap in Hs. lia.
  - rewrite <- (length_map DatasetBuilder.sessionID batchDf).
    rewrite <- (length_sum_occurrences (map DatasetBuilder.sessionID batchDf) ids);
      [| apply NoDup_unique | intros s; apply elem_of_unique].
    generalize ids. intros l. induction l as [| s l IH]; [done |].
    csimpl. by rewrite occurrences_fmap, IH.
Qed.

Lemma buildSessionLevelDataset_sessions_witness :
  let a := DatasetBuilder.mkSignal "sess-1" "2025-01-01T00:00:01Z" 0 [] [] [] in
  let b := DatasetBuilder.mkSignal "sess-2" "2025-01-01T00:00:05Z" 0 [] [] [] in
  ∃ (batchDf : list DatasetBuilder.featureRow) sessionDf,
    DatasetBuilder.buildSessionLevelDataset (DatasetBuilder.mk [a; b; a] init)
    = Ok sessionDf
    ∧ length batchDf = 3%nat
    ∧ sum_list (map DatasetBuilder.batchCount sessionDf)
      = length (A := DatasetBuilder.featureRow) batchDf.
Proof.
  intros a b.
  assert (Hb : ∃ batchDf, DatasetBuilder.buildBatchLevelDataset
                            (DatasetBuilder.mk [a; b; a] init) = Ok batchDf)
    by (eexists; reflexivity).
  destruct Hb as [batchDf Hb].
  assert (Hs : ∃ sessionDf, DatasetBuilder.buildSessionLevelDataset
                              (DatasetBuilder.mk [a; b; a] init) = Ok sessionDf)
    by (eexists; reflexivity).
  destruct Hs as [sessionDf Hs].
  exists batchDf, sessionDf. split; [exact Hs |]. split.
  - apply buildBatchLevelDataset_rows in Hb. apply Forall2_length in Hb. by rewrite <- Hb.
  - by destruct (buildSessionLevelDataset_sessions _ batchDf sessionDf Hb Hs)
      as (_ & _ & _ & Hsum).
Defined.

Lemma columnStats_present (sessionData : list DatasetBuilder.featureRow)
    (col : string) (row : gmap string pd.float) (name : string) :
  name ∈ stat_columns col ∨ name ∈ dom row →
  name ∈ dom (DatasetBuilder.columnStats sessionData col row).
Proof.
  unfold DatasetBuilder.columnStats, stat_columns. cbv zeta.
  rewrite !elem_of_cons, elem_of_nil.
  case_decide; rewrite !dom_insert_L, !elem_of_union, !elem_of_singleton; tauto.
Qed.

Lemma fold_columnStats_present (sessionData : list DatasetBuilder.featureRow)
    (cols : list string) (row : gmap string pd.float) (name : string) :
  name ∈ dom row ∨ (∃ col, col ∈ cols ∧ name ∈ stat_columns col) →
  name ∈ dom (fold_left (λ row col, DatasetBuilder.columnStats sessionData col row)
                        cols row).
Proof.
  revert row. induction cols as [| c cols IH]; intros row Hin; cbn [fold_left].
  - destruct Hin as [Hin | (col & Hcol & _)]; [done | by apply elem_of_nil in Hcol].
  - apply IH. destruct Hin as [Hin | (col & Hcol & Hname)].
    + left. apply columnStats_present. by right.
    + apply elem_of_cons in Hcol as [-> | Hcol].
      * left. apply columnStats_present. by left.
      * right. by exists col.
Qed.

(** X22: every session row has all six statistics ([_mean], [_std], [_min],
    [_max], [_p50], [_p95]) of every feature column that some batch of the
    frame has, also of the columns that no batch of that session has. *)
Theorem buildSessionLevelDataset_columns (self : DatasetBuilder.t)
    (batchDf : list DatasetBuilder.featureRow)
    (sessionDf : list DatasetBuilder.sessionRow) :
  DatasetBuilder.buildBatchLevelDataset self = Ok batchDf →
  DatasetBuilder.buildSessionLevelDataset self = Ok sessionDf →
  ∀ (session : DatasetBuilder.sessionRow) (batch : DatasetBuilder.featureRow)
    (col name : string),
    session ∈ sessionDf → batch ∈ batchDf →
    is_Some (DatasetBuilder.feats batch !! col) →
    name ∈ stat_columns col →
    is_Some (DatasetBuilder.stats session !! name).
Proof.
  intros Hbatch Hok session batch col name Hs Hb Hcol Hname.
  rewrite (buildSessionLevelDataset_inv self batchDf sessionDf Hbatch Hok) in Hs.
  apply list_elem_of_fmap in Hs as (s & -> & _). cbn [DatasetBuilder.stats].
  apply elem_of_dom, fold_columnStats_present. right. exists col. split; [| done].
  apply elem_of_elements, elem_of_union_list.
  exists (dom (DatasetBuilder.feats batch)). split.
  - apply list_elem_of_fmap. by exists batch.
  - by apply elem_of_dom.
Qed.

Lemma buildSessionLevelDataset_columns_witness :
  let a := DatasetBuilder.mkSignal "sess-1" "2025-01-01T00:00:01Z" 0 [] [] [] in
  ∃ session,
    DatasetBuilder.buildSessionLevelDataset (DatasetBuilder.mk [a] init) = Ok [session]
    ∧ is_Some (DatasetBuilder.stats session !! "keyEntropy_p95").
Proof.
  intros a.
  assert (Hb : ∃ batch, DatasetBuilder.buildBatchLevelDataset
                          (DatasetBuilder.mk [a] init) = Ok [batch]
                        ∧ is_Some (DatasetBuilder.feats batch !! "keyEntropy")).
  { eexists. split; [reflexivity |]. eexists. reflexivity. }
  destruct Hb as (batch & Hb & Hcol).
  assert (Hs : ∃ session, DatasetBuilder.buildSessionLevelDataset
                            (DatasetBuilder.mk [a] init) = Ok [session])
    by (eexists; reflexivity).
  destruct Hs as [session Hs]. exists session. split; [exact Hs |].
  apply (buildSessionLevelDataset_columns _ [batch] [session] Hb Hs session batch
           "keyEntropy" "keyEntropy_p95"); try done.
  - apply elem_of_cons. by left.
  - apply elem_of_cons. by left.
  - unfold stat_columns. repeat (apply elem_of_cons; (by left) || right).
Defined.

(** ** Path efficiency *)

Lemma distance_zero (p q : R * R) : distance p q = 0 → p = q.
Proof.
  destruct p as [x1 y1], q as [x2 y2]. unfold distance. intros Hz.
  assert (Hsq : 0 <= (x2 - x1) ^ 2 + (y2 - y1) ^ 2).
  { apply Rplus_le_le_0_compat; apply pow2_ge_0. }
  apply (sqrt_eq_0 _ Hsq) in Hz.
  pose proof (pow2_ge_0 (x2 - x1)). pose proof (pow2_ge_0 (y2 - y1)).
  assert (Hx : (x2 - x1) ^ 2 = 0) by lra.
  assert (Hy : (y2 - y1) ^ 2 = 0) by lra.
  rewrite <- Rsqr_pow2 in Hx, Hy. apply Rsqr_eq_0 in Hx, Hy.
  f_equal; lra.
Qed.

Lemma pathLength_nonneg (coords : list (R * R)) : 0 <= pathLength coords.
Proof. apply pysum_nonneg, distances_nonneg. Qed.

(** The path has length zero exactly when the pointer never left its
    first position. *)
Lemma pathLength_zero_iff (coords : list (R * R)) (c0 : R * R) :
  head coords = Some c0 →
  pathLength coords = 0 ↔ Forall (λ c, c = c0) coords.
Proof.
  revert c0. induction coords as [| p coords IH]; intros c0 Hhd; [done |].
  injection Hhd as ->. destruct coords as [| q coords].
  - rewrite pathLength_single. split; [by repeat constructor | done].
  - rewrite pathLength_cons.
    pose proof (distance_nonneg c0 q) as Hd.
    pose proof (pathLength_nonneg (q :: coords)) as Hp.
    specialize (IH q eq_refl). split.
    + intros Hz. assert (Hdz : distance c0 q = 0) by lra.
      apply distance_zero in Hdz as <-.
      constructor; [done |]. apply IH. lra.
    + intros Hall. apply Forall_cons in Hall as [_ Hall].
      pose proof Hall as Hall'. apply Forall_cons in Hall' as [-> _].
      rewrite distance_same, (proj2 IH Hall). lra.
Qed.

(** The divisor [max(straightLine, 1.0)] is at least one. *)
Lemma floor_ge_one (straight : R) : 1 <= Rmax straight 1.
Proof. apply Rmax_r. Qed.

Section Efficiency.
Variables total straight : R.
Hypothesis total_nonneg : 0 <= total.

Lemma efficiency_range : 0 <= total / Rmax straight 1 <= total.
Proof.
  pose proof (floor_ge_one straight) as Hm.
  assert (Hinv : 0 < / Rmax straight 1 <= 1).
  { split; [apply Rinv_0_lt_compat; lra |].
    pose proof (Rinv_le_contravar 1 _ Rlt_0_1 Hm) as Hle. by rewrite Rinv_1 in Hle. }
  unfold Rdiv. nra.
Qed.

Lemma efficiency_ge_one_iff : 1 <= total / Rmax straight 1 ↔ Rmax straight 1 <= total.
Proof.
  pose proof (floor_ge_one straight) as Hm. split; intros Hle.
  - apply (Rmult_le_compat_r (Rmax straight 1)) in Hle; [| lra].
    unfold Rdiv in Hle. rewrite Rmult_assoc, Rinv_l in Hle by lra. lra.
  - apply (Rmult_le_reg_r (Rmax straight 1)); [lra |].
    unfold Rdiv. rewrite Rmult_assoc, Rinv_l by lra. lra.
Qed.

Lemma efficiency_eq_one_iff : total / Rmax straight 1 = 1 ↔ total = Rmax straight 1.
Proof.
  pose proof (floor_ge_one straight) as Hm. split; intros Heq.
  - apply (f_equal (λ v, v * Rmax straight 1)) in Heq.
    unfold Rdiv in Heq. rewrite Rmult_assoc, Rinv_l in Heq by lra. lra.
  - rewrite Heq. field. lra.
Qed.

Lemma efficiency_short : straight <= 1 → total / Rmax straight 1 = total.
Proof. intros Hs. rewrite Rmax_right by done. field. Qed.

Lemma efficiency_zero_iff : total / Rmax straight 1 = 0 ↔ total = 0.
Proof.
  pose proof (floor_ge_one straight) as Hm. split; intros Heq.
  - apply (f_equal (λ v, v * Rmax straight 1)) in Heq.
    unfold Rdiv in Heq. rewrite Rmult_assoc, Rinv_l in Heq by lra. lra.
  - rewrite Heq. unfold Rdiv. apply Rmult_0_l.
Qed.
End Efficiency.

(** On the straight path (0,0), (1,1), (4,4) the sum of the two rounded
    segment lengths is the binary64 number below the rounded length of
    the straight line, and the quotient is the binary64 number below
    one. *)
Section Rounding.
Import PrimFloat.

Lemma straight_path_rounds_below_one :
  Binary64.mousePathEfficiency [(0, 0); (1, 1); (4, 4)]%float
  = Some 0x1.fffffffffffffp-1%float
  ∧ (0x1.fffffffffffffp-1 <? 1)%float = true.
Proof. split; vm_compute; reflexivity. Qed.

End Rounding.

(** C4, amended: for at least two well-formed moves the path efficiency
    is the path length over the straight-line distance floored at one
    pixel.  It lies between 0 and the path length; it is at least [1]
    exactly when the path length reaches the floored straight-line
    distance, and [1] exactly when the two are equal; it is the path
    length itself when the ends are at most one pixel apart, and 0
    exactly when the pointer never left its first position.  For two
    moves at least one pixel apart it is [1]. *)
Theorem mousePathEfficiency_bounds (self : FeatureExtractor.t) (moves : list Move.t)
    (coords : list (R * R)) (timeDeltas : list R) :
  (2 <= length moves)%nat →
  extractCoordinatesAndTimes moves = Ok (coords, timeDeltas) →
  ∃ (features : gmap string R) (c0 cN : R * R) (efficiency : R),
    head coords = Some c0 ∧ last coords = Some cN
    ∧ extractMouseFeatures self moves = Ok features
    ∧ features !! "mousePathEfficiency" = Some efficiency
    ∧ efficiency = pathLength coords / Rmax (distance c0 cN) 1
    ∧ 0 <= efficiency <= pathLength coords
    ∧ (1 <= efficiency ↔ Rmax (distance c0 cN) 1 <= pathLength coords)
    ∧ (efficiency = 1 ↔ pathLength coords = Rmax (distance c0 cN) 1)
    ∧ (distance c0 cN <= 1 → efficiency = pathLength coords)
    ∧ (efficiency = 0 ↔ Forall (λ c, c = c0) coords)
    ∧ (length moves = 2%nat → 1 <= distance c0 cN → efficiency = 1).
Proof.
  intros Hlen Hcoords.
  destruct (extractMouseFeatures_path self moves coords timeDeltas Hlen Hcoords)
    as (features & c0 & cN & Hhd & Hlast & Hok & Hval).
  fold (pathLength coords) in Hval.
  pose proof (pathLength_nonneg coords) as Hpos.
  exists features, c0, cN, (pathLength coords / Rmax (distance c0 cN) 1).
  split; [exact Hhd |]. split; [exact Hlast |]. split; [exact Hok |].
  split; [exact Hval |]. split; [reflexivity |].
  split; [by apply efficiency_range |].
  split; [by apply efficiency_ge_one_iff |].
  split; [by apply efficiency_eq_one_iff |].
  split; [by apply efficiency_short |].
  split.
  - rewrite efficiency_zero_iff by done. by apply pathLength_zero_iff.
  - intros Htwo Hd.
    destruct (extractCoordinatesAndTimes_lengths _ _ _ Hlen Hcoords) as [Hc _].
    rewrite Htwo in Hc.
    destruct coords as [| p [| q [| r coords]]]; try done.
    injection Hhd as ->. injection Hlast as ->.
    rewrite pathLength_cons, pathLength_single, Rplus_0_r.
    rewrite Rmax_left by done. field. lra.
Qed.

Lemma mousePathEfficiency_bounds_witness :
  let moves := [Move.mk (Some 100) (Some 200) (Some 1000);
                Move.mk (Some 120) (Some 210) (Some 1100)] in
  ∃ features : gmap string R,
    extractMouseFeatures init moves = Ok features
    ∧ features !! "mousePathEfficiency" = Some 1.
Proof.
  intros moves.
  destruct (mousePathEfficiency_bounds init moves
              [(100, 200); (120, 210)] [1100 - 1000])
    as (features & c0 & cN & e & Hhd & Hlast & Hok & Hval & _ & _ & _ & _ & _ & _ & Hone).
  - simpl. lia.
  - reflexivity.
  - injection Hhd as <-. injection Hlast as <-.
    exists features. split; [exact Hok |]. rewrite Hval. f_equal. apply Hone; [done |].
    unfold distance. rewrite <- sqrt_1 at 1. apply sqrt_le_1_alt. simpl. lra.
Defined.
